(** * The Pokemon assessment service: cleaning pass, query layer and ingestion

    A shallow embedding of [candidate_solution.py].  The SQLite store is a
    record of five tables, each a list of rows in the engine's scan order
    (rowid order).  Every SQL statement the program sends is a function on
    that record; the driver calls that may raise are threaded through a
    small state-and-exception monad, so that commit, rollback and the
    [with] statement can be written the way the program uses them.

    Text is modelled as the bytes of its UTF-8 encoding.  SQLite's
    [UPPER], [LOWER] and the [NOCASE] collation only touch the 26 ASCII
    letters, and so do the functions below; a hyphen is one byte, so
    splitting and joining on it is the same on bytes as on characters.
    Python's [str.capitalize] also maps letters outside ASCII: the model
    follows it on ASCII text, and what depends on it is stated for ASCII
    names. *)

From Stdlib Require Import List String Ascii ZArith Bool Lia Arith.
Import ListNotations.
Local Open Scope string_scope.
Local Open Scope Z_scope.

(* ------------------------------------------------------------------ *)
(** ** Text functions of SQLite and Python *)
(* ------------------------------------------------------------------ *)

Module Text.

Definition is_upper (c : ascii) : bool :=
  let n := nat_of_ascii c in (65 <=? n)%nat && (n <=? 90)%nat.

Definition is_lower (c : ascii) : bool :=
  let n := nat_of_ascii c in (97 <=? n)%nat && (n <=? 122)%nat.

Definition is_alpha (c : ascii) : bool := is_upper c || is_lower c.

Definition to_upper (c : ascii) : ascii :=
  if is_lower c then ascii_of_nat (nat_of_ascii c - 32) else c.

Definition to_lower (c : ascii) : ascii :=
  if is_upper c then ascii_of_nat (nat_of_ascii c + 32) else c.

Fixpoint map_chars (f : ascii -> ascii) (s : string) : string :=
  match s with
  | EmptyString => EmptyString
  | String c r => String (f c) (map_chars f r)
  end.

Fixpoint all_chars (p : ascii -> bool) (s : string) : bool :=
  match s with
  | EmptyString => true
  | String c r => p c && all_chars p r
  end.

(** SQL [UPPER(x)] and [LOWER(x)]. *)
Definition UPPER : string -> string := map_chars to_upper.
Definition LOWER : string -> string := map_chars to_lower.

(** SQL [substr(x, 1, 1)] and [substr(x, 2)]. *)
Definition substr_1_1 (s : string) : string :=
  match s with
  | EmptyString => EmptyString
  | String c _ => String c EmptyString
  end.

Definition substr_2 (s : string) : string :=
  match s with
  | EmptyString => EmptyString
  | String _ r => r
  end.

(** [substr(UPPER(name), 1, 1) || LOWER(substr(name, 2))], the expression
    of the type-name update and of the [type2_id] update. *)
Definition sql_title (name : string) : string :=
  substr_1_1 (UPPER name) ++ LOWER (substr_2 name).

(** [a = b COLLATE NOCASE]. *)
Definition nocase_eqb (a b : string) : bool := String.eqb (LOWER a) (LOWER b).

(** Python [str.capitalize()] on ASCII text: first character upper-cased,
    the others lower-cased.  On other text Python also maps the letters
    outside ASCII, which this definition leaves alone. *)
Definition capitalize (s : string) : string :=
  match s with
  | EmptyString => EmptyString
  | String c r => String (to_upper c) (map_chars to_lower r)
  end.

(** Python [s.split(sep)] for a one-character separator: never empty. *)
Fixpoint split (sep : ascii) (s : string) : list string :=
  match s with
  | EmptyString => [EmptyString]
  | String c r =>
      if Ascii.eqb c sep then EmptyString :: split sep r
      else match split sep r with
           | [] => [String c EmptyString]
           | p :: ps => String c p :: ps
           end
  end.

(** Python [sep.join(parts)]. *)
Fixpoint join (sep : ascii) (parts : list string) : string :=
  match parts with
  | [] => EmptyString
  | [p] => p
  | p :: ps => p ++ String sep (join sep ps)
  end.

Definition hyphen : ascii := "-"%char.

(** ['-'.join(part.capitalize() for part in ability_name.split('-'))]. *)
Definition hyphen_title (ability_name : string) : string :=
  join hyphen (map capitalize (split hyphen ability_name)).

(** The type-name pattern: one letter of A-Z, then letters of a-z only,
    and nothing else. *)
Definition matches_type_re (s : string) : bool :=
  match s with
  | EmptyString => false
  | String c r => is_upper c && all_chars is_lower r
  end.

(** The ability-name pattern: one or more segments separated by single
    hyphens, each segment matching the type-name pattern. *)
Definition matches_ability_re (s : string) : bool :=
  forallb matches_type_re (split hyphen s).

(** Every character of [s] is below 128. *)
Definition is_ascii (s : string) : bool :=
  all_chars (fun c => (nat_of_ascii c <? 128)%nat) s.

(** [s] is not the empty string. *)
Definition nonempty (s : string) : bool := negb (String.eqb s "").

(** No character of [s] is a hyphen. *)
Definition no_hyphen (s : string) : bool :=
  all_chars (fun c => negb (Ascii.eqb c hyphen)) s.

End Text.

(* ------------------------------------------------------------------ *)
(** ** The relational store *)
(* ------------------------------------------------------------------ *)

(** Modelled from the spec: the schema, which is provisioned outside the
    repository.  Section 3 gives five integer-identified row-sets; the
    statements of the program add that names and the references of a
    creature or a join row may be NULL ([name IS NOT NULL],
    [type2_id IS NOT NULL], [name IS NULL]).  No column carries a
    uniqueness constraint (the cleaning pass exists to delete rows with
    equal keys) or a collation (the queries ask for NOCASE themselves),
    and foreign keys are not enforced (the program never turns them on).
    The identifier is the rowid, and a name is TEXT or NULL. *)
Record type_row := { type_id : Z; type_name : option string }.
Record ability_row := { ability_id : Z; ability_name : option string }.
Record trainer_row := { trainer_id : Z; trainer_name : option string }.
Record pokemon_row :=
  { pokemon_id : Z; pokemon_name : option string;
    type1_id : option Z; type2_id : option Z }.
Record tpa_row :=
  { tpa_id : Z; tpa_trainer_id : option Z;
    tpa_pokemon_id : option Z; tpa_ability_id : option Z }.

Record database :=
  { types : list type_row;
    abilities : list ability_row;
    pokemon : list pokemon_row;
    trainers : list trainer_row;
    trainer_pokemon_abilities : list tpa_row }.

Definition opt_eqb {A} (eqb : A -> A -> bool) (x y : option A) : bool :=
  match x, y with
  | Some a, Some b => eqb a b
  | None, None => true
  | _, _ => false
  end.

(** SQL [column = 'literal']: false on NULL. *)
Definition sql_eq (x : option string) (lit : string) : bool :=
  match x with Some s => String.eqb s lit | None => false end.

(** SQL [column = ? COLLATE NOCASE]: false on NULL. *)
Definition sql_eq_nocase (x : option string) (arg : string) : bool :=
  match x with Some s => Text.nocase_eqb s arg | None => false end.

(** SQL [a = b] on nullable integers: false when either side is NULL. *)
Definition sql_eq_id (x : option Z) (y : Z) : bool :=
  match x with Some a => Z.eqb a y | None => false end.

(* ------------------------------------------------------------------ *)
(** ** Keep-lowest-id deduplication *)
(* ------------------------------------------------------------------ *)

Section Dedup.
Context {row key : Type}.
Variable id : row -> Z.
Variable key_of : row -> key.
Variable key_eqb : key -> key -> bool.

Definition same_group (r r' : row) : bool := key_eqb (key_of r') (key_of r).

(** [MIN(id)] of the [GROUP BY] group of [r]. *)
Definition group_min (rows : list row) (r : row) : Z :=
  fold_right Z.min (id r) (map id (filter (same_group r) rows)).

(** [SELECT MIN(id) FROM t GROUP BY key]. *)
Definition min_ids (rows : list row) : list Z := map (group_min rows) rows.

(** [DELETE FROM t WHERE id NOT IN (SELECT MIN(id) FROM t GROUP BY key)]. *)
Definition delete_not_min (rows : list row) : list row :=
  filter (fun r => existsb (Z.eqb (id r)) (min_ids rows)) rows.
End Dedup.

Definition name_key_eqb : option string -> option string -> bool :=
  opt_eqb String.eqb.

Definition pokemon_key (p : pokemon_row) : option string * option Z * option Z :=
  (pokemon_name p, type1_id p, type2_id p).

Definition pokemon_key_eqb (a b : option string * option Z * option Z) : bool :=
  let '(n1, t1, u1) := a in
  let '(n2, t2, u2) := b in
  opt_eqb String.eqb n1 n2 && opt_eqb Z.eqb t1 t2 && opt_eqb Z.eqb u1 u2.

Definition tpa_key (j : tpa_row) : option Z * option Z * option Z :=
  (tpa_trainer_id j, tpa_pokemon_id j, tpa_ability_id j).

Definition tpa_key_eqb (a b : option Z * option Z * option Z) : bool :=
  let '(x1, y1, z1) := a in
  let '(x2, y2, z2) := b in
  opt_eqb Z.eqb x1 x2 && opt_eqb Z.eqb y1 y2 && opt_eqb Z.eqb z1 z2.

(* ------------------------------------------------------------------ *)
(** ** The statements of [clean_database], in program order *)
(* ------------------------------------------------------------------ *)

Module Clean.

Definition set_types (db : database) (t : list type_row) : database :=
  {| types := t; abilities := abilities db; pokemon := pokemon db;
     trainers := trainers db;
     trainer_pokemon_abilities := trainer_pokemon_abilities db |}.
Definition set_abilities (db : database) (a : list ability_row) : database :=
  {| types := types db; abilities := a; pokemon := pokemon db;
     trainers := trainers db;
     trainer_pokemon_abilities := trainer_pokemon_abilities db |}.
Definition set_pokemon (db : database) (p : list pokemon_row) : database :=
  {| types := types db; abilities := abilities db; pokemon := p;
     trainers := trainers db;
     trainer_pokemon_abilities := trainer_pokemon_abilities db |}.
Definition set_trainers (db : database) (t : list trainer_row) : database :=
  {| types := types db; abilities := abilities db; pokemon := pokemon db;
     trainers := t;
     trainer_pokemon_abilities := trainer_pokemon_abilities db |}.
Definition set_tpa (db : database) (j : list tpa_row) : database :=
  {| types := types db; abilities := abilities db; pokemon := pokemon db;
     trainers := trainers db; trainer_pokemon_abilities := j |}.

(** Lines 54-88: the five [DELETE ... NOT IN (SELECT MIN(id) ...)]. *)
Definition dedup_abilities (db : database) : database :=
  set_abilities db (delete_not_min ability_id ability_name name_key_eqb (abilities db)).
Definition dedup_pokemon (db : database) : database :=
  set_pokemon db (delete_not_min pokemon_id pokemon_key pokemon_key_eqb (pokemon db)).
Definition dedup_tpa (db : database) : database :=
  set_tpa db (delete_not_min tpa_id tpa_key tpa_key_eqb (trainer_pokemon_abilities db)).
Definition dedup_trainers (db : database) : database :=
  set_trainers db (delete_not_min trainer_id trainer_name name_key_eqb (trainers db)).
Definition dedup_types (db : database) : database :=
  set_types db (delete_not_min type_id type_name name_key_eqb (types db)).

(** Line 90: [DELETE FROM abilities WHERE name = 'Remove this ability']. *)
Definition sentinel : string := "Remove this ability".
Definition delete_sentinel (db : database) : database :=
  set_abilities db
    (filter (fun a => negb (sql_eq (ability_name a) sentinel)) (abilities db)).

(** Lines 93-99: the type names in title case. *)
Definition title_type (t : type_row) : type_row :=
  {| type_id := type_id t;
     type_name := match type_name t with
                  | Some n => Some (Text.sql_title n)
                  | None => None
                  end |}.
Definition title_types (db : database) : database :=
  set_types db (map title_type (types db)).

(** Lines 100-108: the ability corrections, a [CASE] read top to bottom. *)
Definition fix_ability_name (name : option string) : option string :=
  if sql_eq name "static" then Some "Static"
  else if sql_eq name "gras" then Some "Grass"
  else if sql_eq name "overgrow" then Some "Overgrow"
  else if sql_eq name "Torrent" then Some "Torrent"
  else name.
Definition fix_abilities (db : database) : database :=
  set_abilities db
    (map (fun a => {| ability_id := ability_id a;
                      ability_name := fix_ability_name (ability_name a) |})
         (abilities db)).

(** Lines 109-115.  A scalar subquery yields the first row of its result,
    NULL when there is none. *)
Definition type_name_by_id (ts : list type_row) (i : Z) : option string :=
  match find (fun t => Z.eqb (type_id t) i) ts with
  | Some t => type_name t
  | None => None
  end.
Definition type_id_by_name (ts : list type_row) (n : option string) : option Z :=
  match n with
  | None => None
  | Some s =>
      match find (fun t => sql_eq (type_name t) s) ts with
      | Some t => Some (type_id t)
      | None => None
      end
  end.
Definition repoint_type2_row (ts : list type_row) (p : pokemon_row) : pokemon_row :=
  match type2_id p with
  | None => p
  | Some i =>
      {| pokemon_id := pokemon_id p; pokemon_name := pokemon_name p;
         type1_id := type1_id p;
         type2_id :=
           type_id_by_name ts (option_map Text.sql_title (type_name_by_id ts i)) |}
  end.
Definition repoint_type2 (db : database) : database :=
  set_pokemon db (map (repoint_type2_row (types db)) (pokemon db)).

(** Lines 116-121. *)
Definition fix_trainer_name (name : option string) : option string :=
  if sql_eq name "misty" then Some "Misty" else name.
Definition fix_trainers (db : database) : database :=
  set_trainers db
    (map (fun t => {| trainer_id := trainer_id t;
                      trainer_name := fix_trainer_name (trainer_name t) |})
         (trainers db)).

(** Lines 122-124: [DELETE FROM trainers WHERE name = '' OR name IS NULL]. *)
Definition nameless (t : trainer_row) : bool :=
  match trainer_name t with
  | None => true
  | Some s => String.eqb s ""
  end.
Definition delete_nameless_trainers (db : database) : database :=
  set_trainers db (filter (fun t => negb (nameless t)) (trainers db)).

(** Lines 125-133. *)
Definition fix_pokemon_name (name : option string) : option string :=
  if sql_eq name "Pikuchu" then Some "Pikachu"
  else if sql_eq name "Charmanderr" then Some "Charmander"
  else if sql_eq name "Bulbasuar" then Some "Bulbasaur"
  else if sql_eq name "RATtata" then Some "Rattata"
  else name.
Definition fix_pokemon (db : database) : database :=
  set_pokemon db
    (map (fun p => {| pokemon_id := pokemon_id p;
                      pokemon_name := fix_pokemon_name (pokemon_name p);
                      type1_id := type1_id p; type2_id := type2_id p |})
         (pokemon db)).

(** Line 135: [SELECT id, name FROM abilities WHERE name IS NOT NULL]. *)
Definition select_named_abilities (db : database) : list (Z * string) :=
  flat_map (fun a => match ability_name a with
                     | Some n => [(ability_id a, n)]
                     | None => []
                     end) (abilities db).

(** Line 141: [UPDATE abilities SET name = ? WHERE id = ?]. *)
Definition update_ability_name (new_name : string) (i : Z) (db : database) : database :=
  set_abilities db
    (map (fun a => if Z.eqb (ability_id a) i
                   then {| ability_id := ability_id a; ability_name := Some new_name |}
                   else a)
         (abilities db)).

(** The twelve fixed statements, in the order the program sends them. *)
Definition fixed_statements : list (database -> database) :=
  [ dedup_abilities; dedup_pokemon; dedup_tpa; dedup_trainers; dedup_types;
    delete_sentinel; title_types; fix_abilities; repoint_type2;
    fix_trainers; delete_nameless_trainers; fix_pokemon ].

End Clean.

(* ------------------------------------------------------------------ *)
(** ** Driver calls, exceptions and transactions *)
(* ------------------------------------------------------------------ *)

(** The Python exceptions the program meets. *)
Inductive exn :=
| sqlite3_Error (msg : string)
| TypeError (msg : string)
| HTTPException (status_code : Z) (detail : string).

Inductive outcome (A : Type) :=
| Returned (v : A)
| Raised (e : exn).
Arguments Returned {A} v.
Arguments Raised {A} e.

(** What a cursor works on: the uncommitted contents of the store and the
    number of driver calls made so far on the connection. *)
Record cursor_state := { work : database; calls : nat }.

Definition sql (A : Type) : Type := cursor_state -> outcome (A * cursor_state).

Definition ret {A} (v : A) : sql A := fun s => Returned (v, s).

Definition bind {A B} (m : sql A) (k : A -> sql B) : sql B :=
  fun s => match m s with
           | Returned (v, s') => k v s'
           | Raised e => Raised e
           end.

Definition raise {A} (e : exn) : sql A := fun _ => Raised e.

Declare Scope sql_scope.
Delimit Scope sql_scope with sql.
Notation "x <- m ;; k" := (bind m (fun x => k))
  (at level 61, m at next level, right associativity) : sql_scope.
Notation "m ;;; k" := (bind m (fun _ => k))
  (at level 61, right associativity) : sql_scope.
Local Open Scope sql_scope.

(** A Python class, as far as the [with] statement looks at it. *)
Record pyclass := { class_name : string; has_enter : bool; has_exit : bool }.

(** [sqlite3.Connection] is a context manager; [sqlite3.Cursor] defines
    neither [__enter__] nor [__exit__]. *)
Definition sqlite3_Connection : pyclass :=
  {| class_name := "sqlite3.Connection"; has_enter := true; has_exit := true |}.
Definition sqlite3_Cursor : pyclass :=
  {| class_name := "sqlite3.Cursor"; has_enter := false; has_exit := false |}.

(** [with obj: body]: the protocol methods are looked up on the class of
    [obj] before the body runs, and a class without them raises. *)
Definition with_ {A} (cls : pyclass) (body : sql A) : sql A :=
  fun s =>
    if has_enter cls && has_exit cls then body s
    else Raised (TypeError ("'" ++ class_name cls
                   ++ "' object does not support the context manager protocol")).

(** A connection as [clean_database] receives it: the store it is on,
    and whether it has been closed. *)
Record connection := { conn_closed : bool; conn_store : database }.

(** What a call of [clean_database] leaves behind: the store, the lines
    printed, and how the call ended. *)
Record cleaning_run :=
  { store_after : option database;
    printed : list string;
    ended : outcome unit }.

Definition open_on (db : database) : connection :=
  {| conn_closed := false; conn_store := db |}.
Definition closed_on (db : database) : connection :=
  {| conn_closed := true; conn_store := db |}.

Section Driver.
(** [faults n = Some msg]: the [n]-th call on the connection raises
    [sqlite3.Error] with that message. *)
Variable faults : nat -> option string.

(** [cursor.execute] of a statement that writes. *)
Definition execute (stmt : database -> database) : sql unit :=
  fun s => match faults (calls s) with
           | Some msg => Raised (sqlite3_Error msg)
           | None => Returned (tt, {| work := stmt (work s); calls := S (calls s) |})
           end.

(** [cursor.execute] of a [SELECT] followed by the fetch. *)
Definition query {A} (q : database -> A) : sql A :=
  fun s => match faults (calls s) with
           | Some msg => Raised (sqlite3_Error msg)
           | None => Returned (q (work s), {| work := work s; calls := S (calls s) |})
           end.

(** [conn.commit()]. *)
Definition commit : sql unit := execute (fun db => db).

Fixpoint execute_all (stmts : list (database -> database)) : sql unit :=
  match stmts with
  | [] => ret tt
  | st :: rest => execute st ;;; execute_all rest
  end.

(** Lines 137-141: the loop over the fetched ability rows. *)
Fixpoint capitalize_abilities (rows : list (Z * string)) : sql unit :=
  match rows with
  | [] => ret tt
  | (id, name) :: rest =>
      let new_name := Text.hyphen_title name in
      (if String.eqb new_name name then ret tt
       else execute (Clean.update_ability_name new_name id)) ;;;
      capitalize_abilities rest
  end.

(** Lines 54-143: the body of the [try]. *)
Definition clean_try : sql unit :=
  execute_all Clean.fixed_statements ;;;
  abilities <- query Clean.select_named_abilities ;;
  capitalize_abilities abilities ;;;
  commit.

(** [clean_database(conn)]; [None] is a connection that is not there.
    Line 49, [cursor = conn.cursor()], stands before the [try]: on a
    closed connection it raises [sqlite3.ProgrammingError], a
    [sqlite3.Error], to the caller, before anything is printed. *)
Definition clean_database (conn : option connection) : cleaning_run :=
  match conn with
  | None =>
      {| store_after := None;
         printed := ["Error: Invalid database connection provided for cleaning."];
         ended := Returned tt |}
  | Some c =>
      if conn_closed c then
        {| store_after := Some (conn_store c);
           printed := [];
           ended := Raised (sqlite3_Error "Cannot operate on a closed database.") |}
      else
        match clean_try {| work := conn_store c; calls := 0 |} with
        | Returned (_, s) =>
            {| store_after := Some (work s);
               printed := ["Starting database cleaning...";
                           "Database cleaning finished and changes committed."];
               ended := Returned tt |}
        | Raised (sqlite3_Error msg) =>
            (* except sqlite3.Error: print, conn.rollback() *)
            {| store_after := Some (conn_store c);
               printed := ["Starting database cleaning...";
                           "An error occurred during database cleaning: " ++ msg];
               ended := Returned tt |}
        | Raised e =>
            {| store_after := Some (conn_store c);
               printed := ["Starting database cleaning..."];
               ended := Raised e |}
        end
  end.
End Driver.

(** A driver that never fails. *)
Definition no_faults : nat -> option string := fun _ => None.

(** The store after a cleaning pass that meets no driver error. *)
Definition cleaned (db : database) : database :=
  match store_after (clean_database no_faults (Some (open_on db))) with
  | Some db' => db'
  | None => db
  end.

(* ------------------------------------------------------------------ *)
(** ** The statements of the endpoints *)
(* ------------------------------------------------------------------ *)

Module Select.

(** Lines 182-187: creatures by ability. *)
Definition pokemon_by_ability (name : string) (db : database)
  : list (option string) :=
  flat_map (fun p =>
    flat_map (fun tpa =>
      if sql_eq_id (tpa_pokemon_id tpa) (pokemon_id p) then
        flat_map (fun a =>
          if sql_eq_id (tpa_ability_id tpa) (ability_id a)
             && sql_eq_nocase (ability_name a) name
          then [pokemon_name p] else [])
          (abilities db)
      else [])
      (trainer_pokemon_abilities db))
    (pokemon db).

(** The rows [types t2] contributes to a [LEFT JOIN]: the matching rows,
    or one all-NULL row when there is none. *)
Definition left_join_types (ts : list type_row) (ref : option Z)
  : list (option string) :=
  match filter (fun t => sql_eq_id ref (type_id t)) ts with
  | [] => [None]
  | matched => map type_name matched
  end.

(** Lines 205-210: creatures by type, either slot. *)
Definition pokemon_by_type (name : string) (db : database)
  : list (option string) :=
  flat_map (fun p =>
    flat_map (fun t1 =>
      if sql_eq_id (type1_id p) (type_id t1) then
        flat_map (fun t2_name =>
          if sql_eq_nocase (type_name t1) name
             || sql_eq_nocase t2_name name
          then [pokemon_name p] else [])
          (left_join_types (types db) (type2_id p))
      else [])
      (types db))
    (pokemon db).

Fixpoint distinct (l : list (option string)) : list (option string) :=
  match l with
  | [] => []
  | x :: r => x :: filter (fun y => negb (opt_eqb String.eqb x y)) (distinct r)
  end.

(** Lines 227-232: trainers by creature; the name is compared with a
    plain [=]. *)
Definition trainers_by_pokemon (name : string) (db : database)
  : list (option string) :=
  distinct
    (flat_map (fun t =>
       flat_map (fun tpa =>
         if sql_eq_id (tpa_trainer_id tpa) (trainer_id t) then
           flat_map (fun p =>
             if sql_eq_id (tpa_pokemon_id tpa) (pokemon_id p)
                && sql_eq (pokemon_name p) name
             then [trainer_name t] else [])
             (pokemon db)
         else [])
         (trainer_pokemon_abilities db))
       (trainers db)).

(** Lines 249-254: abilities by creature. *)
Definition abilities_by_pokemon (name : string) (db : database)
  : list (option string) :=
  flat_map (fun ab =>
    flat_map (fun tpa =>
      if sql_eq_id (tpa_ability_id tpa) (ability_id ab) then
        flat_map (fun p =>
          if sql_eq_id (tpa_pokemon_id tpa) (pokemon_id p)
             && sql_eq_nocase (pokemon_name p) name
          then [ability_name ab] else [])
          (pokemon db)
      else [])
      (trainer_pokemon_abilities db))
    (abilities db).

(** [SELECT id FROM pokemon WHERE name = ?], [fetchone]. *)
Definition pokemon_id_by_name (name : string) (db : database) : option Z :=
  option_map pokemon_id
    (find (fun p => sql_eq (pokemon_name p) name) (pokemon db)).

(** [SELECT id FROM types WHERE name = ?], [fetchone]. *)
Definition type_id_by_name (name : string) (db : database) : option Z :=
  option_map type_id (find (fun t => sql_eq (type_name t) name) (types db)).

(** [SELECT id FROM abilities WHERE name = ?], [fetchone]. *)
Definition ability_id_by_name (name : string) (db : database) : option Z :=
  option_map ability_id
    (find (fun a => sql_eq (ability_name a) name) (abilities db)).

(** [SELECT id FROM trainers ORDER BY RANDOM() LIMIT 1], [fetchone]; [rnd]
    stands for the engine's random draw. *)
Definition random_trainer_id (rnd : nat) (db : database) : option Z :=
  option_map trainer_id
    (nth_error (trainers db) (Nat.modulo rnd (List.length (trainers db)))).

(** [SELECT id FROM trainer_pokemon_abilities WHERE trainer_id = ? AND
    pokemon_id = ? AND ability_id = ?], [fetchone]. *)
Definition tpa_id_by_key (t p a : Z) (db : database) : option Z :=
  option_map tpa_id
    (find (fun j => sql_eq_id (tpa_trainer_id j) t
                    && sql_eq_id (tpa_pokemon_id j) p
                    && sql_eq_id (tpa_ability_id j) a)
          (trainer_pokemon_abilities db)).

End Select.

(** The largest rowid of the engine, 2^63 - 1. *)
Definition MAX_ROWID : Z := 9223372036854775807.

Module Insert.

(** The rowid SQLite gives a new row: one more than the largest in use,
    1 in an empty table.  This is the engine's rule while the largest
    rowid in use is below [MAX_ROWID]; at that bound the engine draws an
    unused rowid at random instead, which this definition does not
    follow.  What is stated about the place or the identifier of an
    inserted row is stated for stores with room below the bound. *)
Definition next_rowid (ids : list Z) : Z :=
  match ids with
  | [] => 1
  | i :: rest => 1 + fold_right Z.max i rest
  end.

Definition type_ (name : string) (db : database) : database :=
  Clean.set_types db
    (types db ++ [{| type_id := next_rowid (map type_id (types db));
                     type_name := Some name |}]).

Definition ability (name : string) (db : database) : database :=
  Clean.set_abilities db
    (abilities db ++ [{| ability_id := next_rowid (map ability_id (abilities db));
                         ability_name := Some name |}]).

Definition pokemon_ (name : string) (t1 t2 : option Z) (db : database) : database :=
  Clean.set_pokemon db
    (pokemon db ++ [{| pokemon_id := next_rowid (map pokemon_id (pokemon db));
                       pokemon_name := Some name;
                       type1_id := t1; type2_id := t2 |}]).

Definition tpa (t p a : Z) (db : database) : database :=
  Clean.set_tpa db
    (trainer_pokemon_abilities db
       ++ [{| tpa_id := next_rowid (map tpa_id (trainer_pokemon_abilities db));
              tpa_trainer_id := Some t; tpa_pokemon_id := Some p;
              tpa_ability_id := Some a |}]).

End Insert.

(* ------------------------------------------------------------------ *)
(** ** The endpoints *)
(* ------------------------------------------------------------------ *)

(** The machine the service runs on: whether [pokemon_assessment.db] is
    there, whether [sqlite3.connect] raises, and the committed store. *)
Record host :=
  { db_file_exists : bool;
    connect_error : option string;
    disk : database }.

(** [connect_db()]: [None] when the file is absent or the driver raises. *)
Definition connect_db (h : host) : option database :=
  if negb (db_file_exists h) then None
  else match connect_error h with
       | Some _ => None
       | None => Some (disk h)
       end.

(** What serving a request leaves behind: the committed store and how the
    handler ended. *)
Record served (A : Type) := { disk_after : database; reply : outcome A }.
Arguments disk_after {A} s.
Arguments reply {A} s.

(** What the framework sends for a handler's outcome. *)
Inductive http_response (A : Type) :=
| Http200 (body : A)
| HttpError (status_code : Z) (detail : string).
Arguments Http200 {A} body.
Arguments HttpError {A} status_code detail.

Definition fastapi {A} (o : outcome A) : http_response A :=
  match o with
  | Returned v => Http200 v
  | Raised (HTTPException c d) => HttpError c d
  | Raised _ => HttpError 500 "Internal Server Error"
  end.

(** The reply of the lookup collaborator to [requests.get]. *)
Record pokeapi_data := { data_abilities : list string; data_types : list string }.
Record api_response := { status_code : Z; json : pokeapi_data }.

(** The value a successful ingest returns. *)
Record ingest_result := { message : string; inserted_ids : list Z }.

Section Service.
Variable faults : nat -> option string.
(** [requests.get] on the lookup service, and the engine's random draw. *)
Variable requests_get : string -> api_response.
Variable rnd : nat.

(** [with conn: body]: commit when the body returns, roll back and let
    the exception through when it raises. *)
Definition with_connection {A} (conn : database) (body : sql A) : served A :=
  match with_ sqlite3_Connection (v <- body ;; commit faults ;;; ret v)
              {| work := conn; calls := 0 |} with
  | Returned (v, s) => {| disk_after := work s; reply := Returned v |}
  | Raised e => {| disk_after := conn; reply := Raised e |}
  end.

Definition connection_failed {A} (h : host) : served A :=
  {| disk_after := disk h;
     reply := Raised (HTTPException 500 "Database connection error.") |}.

(** [[row[0] for row in results] if results else []]. *)
Definition first_column (results : list (option string)) : list (option string) :=
  match results with
  | [] => []
  | _ => map (fun row => row) results
  end.

(** Lines 177-189, without the two [with] lines. *)
Definition get_pokemon_by_ability_body (ability_name : string)
  : sql (list (option string)) :=
  results <- query faults (Select.pokemon_by_ability ability_name) ;;
  ret (first_column results).

Definition get_pokemon_by_ability (h : host) (ability_name : string)
  : served (list (option string)) :=
  match connect_db h with
  | None => connection_failed h
  | Some conn =>
      with_connection conn
        (with_ sqlite3_Cursor (get_pokemon_by_ability_body ability_name))
  end.

(** Lines 200-212. *)
Definition get_pokemon_by_type_body (type_name : string)
  : sql (list (option string)) :=
  results <- query faults (Select.pokemon_by_type type_name) ;;
  ret (first_column results).

Definition get_pokemon_by_type (h : host) (type_name : string)
  : served (list (option string)) :=
  match connect_db h with
  | None => connection_failed h
  | Some conn =>
      with_connection conn
        (with_ sqlite3_Cursor (get_pokemon_by_type_body type_name))
  end.

(** Lines 222-234. *)
Definition get_trainers_by_pokemon_body (pokemon_name : string)
  : sql (list (option string)) :=
  results <- query faults (Select.trainers_by_pokemon pokemon_name) ;;
  ret (first_column results).

Definition get_trainers_by_pokemon (h : host) (pokemon_name : string)
  : served (list (option string)) :=
  match connect_db h with
  | None => connection_failed h
  | Some conn =>
      with_connection conn
        (with_ sqlite3_Cursor (get_trainers_by_pokemon_body pokemon_name))
  end.

(** Lines 244-256. *)
Definition get_abilities_by_pokemon_body (pokemon_name : string)
  : sql (list (option string)) :=
  results <- query faults (Select.abilities_by_pokemon pokemon_name) ;;
  ret (first_column results).

Definition get_abilities_by_pokemon (h : host) (pokemon_name : string)
  : served (list (option string)) :=
  match connect_db h with
  | None => connection_failed h
  | Some conn =>
      with_connection conn
        (with_ sqlite3_Cursor (get_abilities_by_pokemon_body pokemon_name))
  end.

(** An [INSERT] and the [cursor.lastrowid] it leaves. *)
Definition insert (ids : database -> list Z) (stmt : database -> database) : sql Z :=
  new_id <- query faults (fun db => Insert.next_rowid (ids db)) ;;
  fun s => Returned (new_id, {| work := stmt (work s); calls := calls s |}).

(** Lines 282-290. *)
Definition get_or_create_type (type_name : option string) : sql (option Z) :=
  match type_name with
  | None => ret None
  | Some n =>
      if String.eqb n "" then ret None
      else
        row <- query faults (Select.type_id_by_name n) ;;
        match row with
        | Some i => ret (Some i)
        | None =>
            i <- insert (fun db => map type_id (types db)) (Insert.type_ n) ;;
            ret (Some i)
        end
  end.

(** Lines 312-322: the loop over the abilities of the reply.  The
    [INSERT OR IGNORE] meets no constraint it could conflict with. *)
Fixpoint add_abilities (trainer pokemon_ : Z) (names : list string)
         (inserted : list Z) : sql (list Z) :=
  match names with
  | [] => ret inserted
  | ability :: rest =>
      _ <- insert (fun db => map ability_id (abilities db)) (Insert.ability ability) ;;
      row <- query faults (Select.ability_id_by_name ability) ;;
      match row with
      | None => raise (TypeError "'NoneType' object is not subscriptable")
      | Some a =>
          existing <- query faults (Select.tpa_id_by_key trainer pokemon_ a) ;;
          match existing with
          | Some _ => add_abilities trainer pokemon_ rest inserted
          | None =>
              new_id <- insert (fun db => map tpa_id (trainer_pokemon_abilities db))
                               (Insert.tpa trainer pokemon_ a) ;;
              add_abilities trainer pokemon_ rest (inserted ++ [new_id])
          end
      end
  end.

(** Lines 267-324, without the two [with] lines. *)
Definition add_trainer_pokemon_abilities_body (pokemon_name : string)
  : sql ingest_result :=
  existing_pokemon <- query faults (Select.pokemon_id_by_name pokemon_name) ;;
  match existing_pokemon with
  | Some _ => raise (HTTPException 400 "Pokémon already exists in the database.")
  | None =>
      let response := requests_get pokemon_name in
      if negb (Z.eqb (status_code response) 200)
      then raise (HTTPException 404 "Pokémon not found in PokéAPI.")
      else
        let data := json response in
        let type1 := nth_error (data_types data) 0 in
        let type2 := nth_error (data_types data) 1 in
        type1_id <- get_or_create_type type1 ;;
        type2_id <- get_or_create_type type2 ;;
        row <- query faults (Select.pokemon_id_by_name pokemon_name) ;;
        pokemon_id <-
          match row with
          | Some i => ret i
          | None => insert (fun db => map pokemon_id (pokemon db))
                           (Insert.pokemon_ pokemon_name type1_id type2_id)
          end ;;
        trainer_row <- query faults (Select.random_trainer_id rnd) ;;
        match trainer_row with
        | None => raise (HTTPException 400 "No trainers available.")
        | Some trainer_id =>
            inserted_ids <-
              add_abilities trainer_id pokemon_id (data_abilities data) [] ;;
            ret {| message := "Abilities for " ++ pokemon_name ++ " added successfully.";
                   inserted_ids := inserted_ids |}
        end
  end.

(** Lines 259-329. *)
Definition add_trainer_pokemon_abilities (h : host) (pokemon_name : string)
  : served ingest_result :=
  match connect_db h with
  | None => connection_failed h
  | Some conn =>
      let r := with_connection conn
                 (with_ sqlite3_Cursor
                    (add_trainer_pokemon_abilities_body pokemon_name)) in
      match reply r with
      | Returned _ => r
      | Raised (HTTPException _ _) => r
      | Raised _ =>
          {| disk_after := disk_after r;
             reply := Raised (HTTPException 500 "Internal server error.") |}
      end
  end.

(** The requests the service routes. *)
Inductive request :=
| GetRoot
| GetPokemonByAbility (ability_name : string)
| GetPokemonByType (type_name : string)
| GetTrainersByPokemon (pokemon_name : string)
| GetAbilitiesByPokemon (pokemon_name : string)
| PostTrainerPokemonAbilities (pokemon_name : string).

(** The committed store once a request has been served. *)
Definition serve (h : host) (req : request) : database :=
  match req with
  | GetRoot => disk h
  | GetPokemonByAbility a => disk_after (get_pokemon_by_ability h a)
  | GetPokemonByType t => disk_after (get_pokemon_by_type h t)
  | GetTrainersByPokemon p => disk_after (get_trainers_by_pokemon h p)
  | GetAbilitiesByPokemon p => disk_after (get_abilities_by_pokemon h p)
  | PostTrainerPokemonAbilities p => disk_after (add_trainer_pokemon_abilities h p)
  end.
End Service.

(* ------------------------------------------------------------------ *)
(** ** The cleaning pass as a script of driver calls *)
(* ------------------------------------------------------------------ *)

(** The [UPDATE]s the loop of lines 137-141 sends for the fetched rows. *)
Definition ability_updates (rows : list (Z * string)) : list (database -> database) :=
  flat_map (fun row : Z * string =>
              let (id, name) := row in
              let new_name := Text.hyphen_title name in
              if String.eqb new_name name then []
              else [Clean.update_ability_name new_name id])
           rows.

Definition run_all (stmts : list (database -> database)) (db : database) : database :=
  fold_left (fun d st => st d) stmts db.

(** Every driver call of one cleaning pass on [db], in order: the twelve
    statements, the [SELECT], the loop's updates, the commit. *)
Definition clean_script (db : database) : list (database -> database) :=
  let db1 := run_all Clean.fixed_statements db in
  Clean.fixed_statements
    ++ [fun d => d]
    ++ ability_updates (Clean.select_named_abilities db1)
    ++ [fun d => d].

(** The store once the twelve fixed statements have run. *)
Definition after_fixed (db : database) : database :=
  run_all Clean.fixed_statements db.

(** The first call among the first [n] that the driver fails, if any. *)
Fixpoint first_fault_from (faults : nat -> option string) (k n : nat)
  : option (nat * string) :=
  match n with
  | O => None
  | S n' => match faults k with
            | Some msg => Some (k, msg)
            | None => first_fault_from faults (S k) n'
            end
  end.

Definition first_fault (faults : nat -> option string) (n : nat)
  : option (nat * string) := first_fault_from faults 0 n.

(* ------------------------------------------------------------------ *)
(** ** Post-cleaning invariants of the data model (section 3) *)
(* ------------------------------------------------------------------ *)

Module Invariant.

Definition folded (name : option string) : option string :=
  option_map Text.LOWER name.

Definition unique_type_names (db : database) : Prop :=
  NoDup (map (fun t => folded (type_name t)) (types db)).
Definition unique_ability_names (db : database) : Prop :=
  NoDup (map (fun a => folded (ability_name a)) (abilities db)).
Definition unique_trainer_names (db : database) : Prop :=
  NoDup (map (fun t => folded (trainer_name t)) (trainers db)).
Definition unique_pokemon_keys (db : database) : Prop :=
  NoDup (map pokemon_key (pokemon db)).
Definition unique_tpa_keys (db : database) : Prop :=
  NoDup (map tpa_key (trainer_pokemon_abilities db)).

Definition canonical_type_names (db : database) : Prop :=
  forall t n, In t (types db) -> type_name t = Some n ->
              Text.matches_type_re n = true.
Definition canonical_ability_names (db : database) : Prop :=
  forall a n, In a (abilities db) -> ability_name a = Some n ->
              Text.matches_ability_re n = true.
Definition named_trainers (db : database) : Prop :=
  forall t, In t (trainers db) -> Clean.nameless t = false.

Definition post_cleaning (db : database) : Prop :=
  unique_type_names db /\ unique_ability_names db /\ unique_trainer_names db
  /\ unique_pokemon_keys db /\ unique_tpa_keys db
  /\ canonical_type_names db /\ canonical_ability_names db
  /\ named_trainers db.

End Invariant.

(* ------------------------------------------------------------------ *)
(** ** Casing after cleaning, dangling references *)
(* ------------------------------------------------------------------ *)

(** The casing a cleaned Type name has: the title-case expression leaves
    it alone, and it matches the type pattern exactly when it is non-empty
    and all letters. *)
Definition cased_type_name (name : option string) : Prop :=
  match name with
  | None => True
  | Some n =>
      Text.sql_title n = n
      /\ Text.matches_type_re n
         = Text.nonempty n && Text.all_chars Text.is_alpha n
  end.

(** The casing a cleaned Ability name has, segment by segment. *)
Definition cased_ability_name (name : option string) : Prop :=
  match name with
  | None => True
  | Some n =>
      Text.hyphen_title n = n
      /\ Text.matches_ability_re n
         = forallb (fun seg => Text.nonempty seg
                               && Text.all_chars Text.is_alpha seg)
                   (Text.split Text.hyphen n)
  end.

(** A name that is NULL or ASCII text. *)
Definition ascii_name (name : option string) : bool :=
  match name with
  | None => true
  | Some n => Text.is_ascii n
  end.

(** Some row of the table carries the referenced identifier. *)
Definition references {row : Type} (id : row -> Z) (rows : list row)
           (ref : option Z) : bool :=
  existsb (fun r => sql_eq_id ref (id r)) rows.

(** The join rows the creature-ability joins can reach, and those the
    trainer-creature join can reach. *)
Definition joins_ability (db : database) (j : tpa_row) : bool :=
  references pokemon_id (pokemon db) (tpa_pokemon_id j)
  && references ability_id (abilities db) (tpa_ability_id j).
Definition joins_trainer (db : database) (j : tpa_row) : bool :=
  references trainer_id (trainers db) (tpa_trainer_id j)
  && references pokemon_id (pokemon db) (tpa_pokemon_id j).

(** The store with only the join rows that [keep] retains. *)
Definition only_joins (keep : database -> tpa_row -> bool) (db : database) : database :=
  Clean.set_tpa db (filter (keep db) (trainer_pokemon_abilities db)).

(** The exception of [with conn.cursor() as cursor:]. *)
Definition cursor_type_error : exn :=
  TypeError "'sqlite3.Cursor' object does not support the context manager protocol".

(* ------------------------------------------------------------------ *)
(** ** Sample stores *)
(* ------------------------------------------------------------------ *)

Module Sample.

Definition empty : database :=
  {| types := []; abilities := []; pokemon := []; trainers := [];
     trainer_pokemon_abilities := [] |}.

Definition type_ (i : Z) (n : string) : type_row :=
  {| type_id := i; type_name := Some n |}.
Definition ability (i : Z) (n : string) : ability_row :=
  {| ability_id := i; ability_name := Some n |}.
Definition trainer (i : Z) (n : string) : trainer_row :=
  {| trainer_id := i; trainer_name := Some n |}.
Definition creature (i : Z) (n : string) (t1 : Z) (t2 : option Z) : pokemon_row :=
  {| pokemon_id := i; pokemon_name := Some n; type1_id := Some t1; type2_id := t2 |}.
Definition grant (i t p a : Z) : tpa_row :=
  {| tpa_id := i; tpa_trainer_id := Some t; tpa_pokemon_id := Some p;
     tpa_ability_id := Some a |}.

(** Rows that differ only by casing or by a known misspelling. *)
Definition near_duplicates : database :=
  {| types := [type_ 1 "fire"; type_ 2 "Fire"];
     abilities := [ability 1 "gras"; ability 2 "Grass"];
     pokemon := [creature 1 "Pikuchu" 1 None; creature 2 "Pikachu" 1 None];
     trainers := [trainer 1 "misty"; trainer 2 "Misty"];
     trainer_pokemon_abilities := [grant 1 1 1 1] |}.

(** Names that are not made of letters only. *)
Definition odd_names : database :=
  {| types := [type_ 1 "???"];
     abilities := [ability 1 "Soul_heart"];
     pokemon := []; trainers := []; trainer_pokemon_abilities := [] |}.

(** A join row that grants the placeholder ability. *)
Definition placeholder_grant : database :=
  {| types := [type_ 1 "Electric"];
     abilities := [ability 1 "Remove this ability"; ability 2 "Static"];
     pokemon := [creature 1 "Pikachu" 1 None];
     trainers := [trainer 1 "Ash"];
     trainer_pokemon_abilities := [grant 1 1 1 1; grant 2 1 1 2] |}.

(** A store whose only join row grants the placeholder ability. *)
Definition sentinel_only : database :=
  {| types := [type_ 1 "Electric"];
     abilities := [ability 1 "Remove this ability"];
     pokemon := [creature 1 "Pikachu" 1 None];
     trainers := [trainer 1 "Ash"];
     trainer_pokemon_abilities := [grant 1 1 1 1] |}.

(** A cleaned store with one creature. *)
Definition pikachu : database :=
  {| types := [type_ 1 "Electric"];
     abilities := [ability 1 "Static"];
     pokemon := [creature 1 "Pikachu" 1 None];
     trainers := [trainer 1 "Ash"];
     trainer_pokemon_abilities := [grant 1 1 1 1] |}.

Definition reachable (db : database) : host :=
  {| db_file_exists := true; connect_error := None; disk := db |}.

(** The lookup service knows [raichu] and nothing else. *)
Definition pokeapi (name : string) : api_response :=
  if String.eqb name "raichu"
  then {| status_code := 200;
          json := {| data_abilities := ["static"]; data_types := ["electric"] |} |}
  else {| status_code := 404;
          json := {| data_abilities := []; data_types := [] |} |}.

(** A driver whose first call fails. *)
Definition first_call_fails (n : nat) : option string :=
  match n with
  | O => Some "disk I/O error"
  | S _ => None
  end.

End Sample.

(* ------------------------------------------------------------------ *)
(** ** The pass as one transformation *)
(* ------------------------------------------------------------------ *)

(** The five [DELETE]s that open the pass (lines 54-88). *)
Definition dedup_statements : list (database -> database) :=
  [ Clean.dedup_abilities; Clean.dedup_pokemon; Clean.dedup_tpa;
    Clean.dedup_trainers; Clean.dedup_types ].

(** Within every table the identifiers are pairwise distinct. *)
Definition distinct_ids (db : database) : Prop :=
  NoDup (map type_id (types db))
  /\ NoDup (map ability_id (abilities db))
  /\ NoDup (map pokemon_id (pokemon db))
  /\ NoDup (map trainer_id (trainers db))
  /\ NoDup (map tpa_id (trainer_pokemon_abilities db)).

(** Within every table the [GROUP BY] keys are pairwise distinct. *)
Definition distinct_keys (db : database) : Prop :=
  NoDup (map type_name (types db))
  /\ NoDup (map ability_name (abilities db))
  /\ NoDup (map pokemon_key (pokemon db))
  /\ NoDup (map trainer_name (trainers db))
  /\ NoDup (map tpa_key (trainer_pokemon_abilities db)).

(** An ability row after the correction table and the casing loop. *)
Definition cased_ability (a : ability_row) : ability_row :=
  {| ability_id := ability_id a;
     ability_name :=
       option_map Text.hyphen_title (Clean.fix_ability_name (ability_name a)) |}.

(** A creature row after the re-pointing of its second type against the
    type table [ts] and the correction table. *)
Definition cleaned_pokemon_row (ts : list type_row) (p : pokemon_row) : pokemon_row :=
  {| pokemon_id := pokemon_id p;
     pokemon_name := Clean.fix_pokemon_name (pokemon_name p);
     type1_id := type1_id p;
     type2_id := type2_id (Clean.repoint_type2_row ts p) |}.

(** The store a fault-free pass leaves, table by table. *)
Definition clean_spec (db : database) : database :=
  let ts := map Clean.title_type
                (delete_not_min type_id type_name name_key_eqb (types db)) in
  {| types := ts;
     abilities :=
       map cased_ability
           (filter (fun a => negb (sql_eq (ability_name a) Clean.sentinel))
                   (delete_not_min ability_id ability_name name_key_eqb
                                   (abilities db)));
     pokemon :=
       map (cleaned_pokemon_row ts)
           (delete_not_min pokemon_id pokemon_key pokemon_key_eqb (pokemon db));
     trainers :=
       filter (fun t => negb (Clean.nameless t))
              (map (fun t => {| trainer_id := trainer_id t;
                                trainer_name := Clean.fix_trainer_name (trainer_name t) |})
                   (delete_not_min trainer_id trainer_name name_key_eqb
                                   (trainers db)));
     trainer_pokemon_abilities :=
       delete_not_min tpa_id tpa_key tpa_key_eqb (trainer_pokemon_abilities db) |}.

(** What the loop of lines 137-141, run over the fetched [rows], makes of
    one ability row. *)
Definition update_row (rows : list (Z * string)) (a : ability_row) : ability_row :=
  fold_left
    (fun (a : ability_row) (row : Z * string) =>
       let (id, name) := row in
       if String.eqb (Text.hyphen_title name) name then a
       else if Z.eqb (ability_id a) id
            then {| ability_id := ability_id a;
                    ability_name := Some (Text.hyphen_title name) |}
            else a)
    rows a.

(** The names the correction tables replace. *)
Definition misspelt_pokemon (name : option string) : bool :=
  sql_eq name "Pikuchu" || sql_eq name "Charmanderr"
  || sql_eq name "Bulbasuar" || sql_eq name "RATtata".
Definition misspelt_ability (name : option string) : bool :=
  sql_eq name "static" || sql_eq name "gras" || sql_eq name "overgrow".
Definition misspelt_trainer (name : option string) : bool :=
  sql_eq name "misty".

(** A second-type reference that is NULL or names a row of [ts] whose
    name is not NULL. *)
Definition valid_type2 (ts : list type_row) (p : pokemon_row) : Prop :=
  match type2_id p with
  | None => True
  | Some i => exists t, In t ts /\ type_id t = i /\ type_name t <> None
  end.

(** [db'] holds the rows of [db] unchanged and in place, with new rows
    after them at most; the trainers are the same. *)
Definition extends (db db' : database) : Prop :=
  (exists more, types db' = (types db ++ more)%list)
  /\ (exists more, abilities db' = (abilities db ++ more)%list)
  /\ (exists more, pokemon db' = (pokemon db ++ more)%list)
  /\ trainers db' = trainers db
  /\ (exists more, trainer_pokemon_abilities db'
                   = (trainer_pokemon_abilities db ++ more)%list).

(** The invariants of section 3 that do not speak of Type or Ability
    names. *)
Definition kept_invariants (db : database) : Prop :=
  Invariant.unique_trainer_names db /\ Invariant.named_trainers db
  /\ Invariant.unique_pokemon_keys db /\ Invariant.unique_tpa_keys db.

(** [post] holds of the cursor whenever [m], started on [s], returns. *)
Definition returns_with {A} (m : sql A) (s : cursor_state)
           (post : cursor_state -> Prop) : Prop :=
  match m s with
  | Returned (_, s') => post s'
  | Raised _ => True
  end.

(** Every table that takes inserts has room for [n] more rows below
    [MAX_ROWID]: each of the next [n] inserts then gets the largest rowid
    in use plus one. *)
Definition rowid_headroom (n : nat) (db : database) : Prop :=
  Forall (fun i => i + Z.of_nat n <= MAX_ROWID) (map type_id (types db))
  /\ Forall (fun i => i + Z.of_nat n <= MAX_ROWID)
            (map ability_id (abilities db))
  /\ Forall (fun i => i + Z.of_nat n <= MAX_ROWID) (map pokemon_id (pokemon db))
  /\ Forall (fun i => i + Z.of_nat n <= MAX_ROWID)
            (map tpa_id (trainer_pokemon_abilities db)).

(** The rows one ingest can add to a table at most: two types, one
    creature, one ability and one join row per ability of the reply. *)
Definition ingest_inserts (reply : api_response) : nat :=
  (2 + List.length (data_abilities (json reply)))%nat.

(** The rows [SELECT id, name FROM abilities WHERE name IS NOT NULL]
    fetches from an ability table. *)
Definition named_rows (abl : list ability_row) : list (Z * string) :=
  flat_map (fun a => match ability_name a with
                     | Some n => [(ability_id a, n)]
                     | None => []
                     end) abl.

(** [db'] holds the rows of [db] and keeps identifiers distinct. *)
Definition grows (db db' : database) : Prop :=
  extends db db' /\ (distinct_ids db -> distinct_ids db').

(** The cursor after one more driver call that wrote nothing. *)
Definition bump (s : cursor_state) : cursor_state :=
  {| work := work s; calls := S (calls s) |}.

(** Lines 333-341, up to the creation of the app: connect, run the
    cleaning pass when a connection came back, close.  The result is the
    machine the endpoints are then served from; nothing on this path
    stops the app from being created. *)
Definition startup (faults : nat -> option string) (h : host) : host :=
  match connect_db h with
  | None => h
  | Some temp_conn =>
      match store_after (clean_database faults (Some (open_on temp_conn))) with
      | Some db => {| db_file_exists := db_file_exists h;
                      connect_error := connect_error h;
                      disk := db |}
      | None => h
      end
  end.

(* ------------------------------------------------------------------ *)
(** ** Driver calls: general facts *)
(* ------------------------------------------------------------------ *)

Section DriverFacts.
Variable faults : nat -> option string.

Lemma bind_unit_ret (m : sql unit) (s : cursor_state) :
  bind m (fun _ => ret tt) s = m s.
Proof.
  unfold bind, ret. destruct (m s) as [[[] s']|e]; reflexivity.
Qed.

Lemma execute_all_app (l1 l2 : list (database -> database)) (s : cursor_state) :
  execute_all faults (l1 ++ l2) s
  = bind (execute_all faults l1) (fun _ => execute_all faults l2) s.
Proof.
  revert s. induction l1 as [|st l1 IH]; intros s; simpl.
  - reflexivity.
  - unfold bind. destruct (execute faults st s) as [[u s']|e].
    + rewrite IH. reflexivity.
    + reflexivity.
Qed.

Lemma capitalize_abilities_script (rows : list (Z * string)) (s : cursor_state) :
  capitalize_abilities faults rows s
  = execute_all faults (ability_updates rows) s.
Proof.
  revert s. induction rows as [|[id name] rows IH]; intros s.
  - reflexivity.
  - cbn [capitalize_abilities ability_updates flat_map].
    destruct (String.eqb (Text.hyphen_title name) name).
    + cbn [app]. unfold bind, ret. apply IH.
    + cbn [app execute_all]. unfold bind.
      destruct (execute faults _ s) as [[u s']|e]; [apply IH | reflexivity].
Qed.

Lemma execute_all_run (l : list (database -> database)) (s : cursor_state) :
  execute_all faults l s
  = match first_fault_from faults (calls s) (List.length l) with
    | Some (_, msg) => Raised (sqlite3_Error msg)
    | None => Returned (tt, {| work := run_all l (work s);
                               calls := calls s + List.length l |})
    end.
Proof.
  revert s. induction l as [|st l IH]; intros [w n]; cbn [execute_all List.length first_fault_from].
  - unfold ret, run_all. cbn. rewrite Nat.add_0_r. reflexivity.
  - unfold bind, execute. cbn [calls work].
    destruct (faults n) as [msg|]; [reflexivity|].
    rewrite IH. cbn [calls work].
    destruct (first_fault_from faults (S n) (List.length l)) as [[k msg]|].
    + reflexivity.
    + unfold run_all. cbn [fold_left].
      replace (S n + List.length l)%nat with (n + S (List.length l))%nat by lia.
      reflexivity.
Qed.

Lemma clean_try_script (db : database) :
  clean_try faults {| work := db; calls := 0 |}
  = execute_all faults (clean_script db) {| work := db; calls := 0 |}.
Proof.
  unfold clean_try, clean_script.
  rewrite execute_all_app. unfold bind at 1 4.
  rewrite execute_all_run. cbn [calls work].
  destruct (first_fault_from faults 0 (List.length Clean.fixed_statements))
    as [[k msg]|]; [reflexivity|].
  cbn [app execute_all]. unfold bind at 1 3, query, execute. cbn [calls work].
  destruct (faults _) as [msg|]; [reflexivity|].
  rewrite execute_all_app. unfold bind at 1 2.
  rewrite capitalize_abilities_script.
  destruct (execute_all faults _ _) as [[u s']|e]; [|reflexivity].
  cbn [execute_all]. rewrite bind_unit_ret. reflexivity.
Qed.

(** One call of [clean_database], read off the script of the pass. *)
Lemma clean_database_run (db : database) :
  clean_database faults (Some (open_on db))
  = match first_fault faults (List.length (clean_script db)) with
    | None =>
        {| store_after := Some (run_all (clean_script db) db);
           printed := ["Starting database cleaning...";
                       "Database cleaning finished and changes committed."];
           ended := Returned tt |}
    | Some (_, msg) =>
        {| store_after := Some db;
           printed := ["Starting database cleaning...";
                       "An error occurred during database cleaning: " ++ msg];
           ended := Returned tt |}
    end.
Proof.
  unfold clean_database. cbn [open_on conn_closed conn_store].
  rewrite clean_try_script, execute_all_run.
  unfold first_fault. cbn [calls work].
  destruct (first_fault_from faults 0 _) as [[k msg]|]; reflexivity.
Qed.
End DriverFacts.

Lemma first_fault_from_none (k n : nat) : first_fault_from no_faults k n = None.
Proof. revert k. induction n as [|n IH]; intros k; simpl; auto. Qed.

Lemma cleaned_run (db : database) :
  cleaned db = run_all (clean_script db) db.
Proof.
  unfold cleaned. rewrite clean_database_run. unfold first_fault.
  rewrite first_fault_from_none. reflexivity.
Qed.

(* ------------------------------------------------------------------ *)
(** ** Casing, splitting and joining *)
(* ------------------------------------------------------------------ *)

Module TextFacts.
Import Text.

Ltac each_char c := destruct c as [[] [] [] [] [] [] [] []]; reflexivity.

Lemma to_upper_idem c : to_upper (to_upper c) = to_upper c.
Proof. each_char c. Qed.
Lemma to_lower_idem c : to_lower (to_lower c) = to_lower c.
Proof. each_char c. Qed.
Lemma is_upper_to_upper c : is_upper (to_upper c) = is_alpha c.
Proof. each_char c. Qed.
Lemma is_lower_to_lower c : is_lower (to_lower c) = is_alpha c.
Proof. each_char c. Qed.
Lemma is_alpha_to_upper c : is_alpha (to_upper c) = is_alpha c.
Proof. each_char c. Qed.
Lemma is_alpha_to_lower c : is_alpha (to_lower c) = is_alpha c.
Proof. each_char c. Qed.
Lemma hyphen_to_upper c : Ascii.eqb (to_upper c) hyphen = Ascii.eqb c hyphen.
Proof. each_char c. Qed.
Lemma hyphen_to_lower c : Ascii.eqb (to_lower c) hyphen = Ascii.eqb c hyphen.
Proof. each_char c. Qed.

(** The SQL expression and [str.capitalize] agree on ASCII text. *)
Lemma sql_title_capitalize s : sql_title s = capitalize s.
Proof. destruct s; reflexivity. Qed.

Lemma map_chars_idem f s :
  (forall c, f (f c) = f c) -> map_chars f (map_chars f s) = map_chars f s.
Proof. intros Hf. induction s as [|c r IH]; simpl; [|rewrite Hf, IH]; reflexivity. Qed.

Lemma capitalize_idem s : capitalize (capitalize s) = capitalize s.
Proof.
  destruct s as [|c r]; simpl; [reflexivity|].
  rewrite to_upper_idem, (map_chars_idem to_lower r to_lower_idem). reflexivity.
Qed.

Lemma all_lower_map_lower r :
  all_chars is_lower (map_chars to_lower r) = all_chars is_alpha r.
Proof.
  induction r as [|c r IH]; simpl; [|rewrite is_lower_to_lower, IH]; reflexivity.
Qed.

Lemma all_alpha_map_lower r :
  all_chars is_alpha (map_chars to_lower r) = all_chars is_alpha r.
Proof.
  induction r as [|c r IH]; simpl; [|rewrite is_alpha_to_lower, IH]; reflexivity.
Qed.

Lemma matches_type_re_capitalize s :
  matches_type_re (capitalize s) = nonempty s && all_chars is_alpha s.
Proof.
  destruct s as [|c r]; simpl; [reflexivity|].
  rewrite is_upper_to_upper, all_lower_map_lower. reflexivity.
Qed.

Lemma all_alpha_capitalize s :
  all_chars is_alpha (capitalize s) = all_chars is_alpha s.
Proof.
  destruct s as [|c r]; simpl; [|rewrite is_alpha_to_upper, all_alpha_map_lower];
    reflexivity.
Qed.

Lemma nonempty_capitalize s : nonempty (capitalize s) = nonempty s.
Proof. destruct s; reflexivity. Qed.

(** A name that casing leaves alone matches the type pattern exactly when
    it is non-empty and all letters. *)
Lemma matches_type_re_fixed s :
  capitalize s = s ->
  matches_type_re s = nonempty s && all_chars is_alpha s.
Proof. intros H. rewrite <- H at 1. apply matches_type_re_capitalize. Qed.

Lemma split_not_nil s : split hyphen s <> [].
Proof.
  destruct s as [|c r]; simpl; [discriminate|].
  destruct (Ascii.eqb c hyphen); [discriminate|].
  destruct (split hyphen r); discriminate.
Qed.

Lemma split_no_hyphen s : forallb no_hyphen (split hyphen s) = true.
Proof.
  induction s as [|c r IH]; simpl; [reflexivity|].
  destruct (Ascii.eqb c hyphen) eqn:E; simpl; [exact IH|].
  destruct (split hyphen r) as [|p ps]; simpl in *.
  - unfold no_hyphen; simpl. rewrite E. reflexivity.
  - unfold no_hyphen in *; simpl. rewrite E. exact IH.
Qed.

Lemma split_plain p : no_hyphen p = true -> split hyphen p = [p].
Proof.
  induction p as [|c r IH]; simpl; [reflexivity|].
  unfold no_hyphen; simpl. intros H. apply andb_true_iff in H as [Hc Hr].
  apply negb_true_iff in Hc. rewrite Hc, (IH Hr). reflexivity.
Qed.

Lemma split_prefix p rest :
  no_hyphen p = true ->
  split hyphen (p ++ String hyphen rest) = p :: split hyphen rest.
Proof.
  induction p as [|c r IH]; simpl.
  - intros _. reflexivity.
  - unfold no_hyphen; simpl. intros H. apply andb_true_iff in H as [Hc Hr].
    apply negb_true_iff in Hc. rewrite Hc, (IH Hr). reflexivity.
Qed.

Lemma split_join parts :
  parts <> [] -> forallb no_hyphen parts = true ->
  split hyphen (join hyphen parts) = parts.
Proof.
  induction parts as [|p ps IH]; [congruence|].
  intros _ H. simpl in H. apply andb_true_iff in H as [Hp Hps].
  destruct ps as [|q qs].
  - simpl. apply split_plain, Hp.
  - change (join hyphen (p :: q :: qs))
      with (p ++ String hyphen (join hyphen (q :: qs))).
    rewrite (split_prefix _ _ Hp), IH; [reflexivity|discriminate|exact Hps].
Qed.

Lemma no_hyphen_capitalize s : no_hyphen (capitalize s) = no_hyphen s.
Proof.
  destruct s as [|c r]; [reflexivity|].
  unfold no_hyphen; simpl. rewrite hyphen_to_upper. f_equal.
  induction r as [|d r IH]; simpl; [|rewrite hyphen_to_lower, IH]; reflexivity.
Qed.

Lemma capitalized_parts_no_hyphen s :
  forallb no_hyphen (map capitalize (split hyphen s)) = true.
Proof.
  pose proof (split_no_hyphen s) as H.
  induction (split hyphen s) as [|p ps IH]; simpl in *; [reflexivity|].
  apply andb_true_iff in H as [Hp Hps].
  rewrite no_hyphen_capitalize, Hp. simpl. apply IH, Hps.
Qed.

Lemma split_hyphen_title s :
  split hyphen (hyphen_title s) = map capitalize (split hyphen s).
Proof.
  unfold hyphen_title. apply split_join.
  - pose proof (split_not_nil s). destruct (split hyphen s); [congruence|discriminate].
  - apply capitalized_parts_no_hyphen.
Qed.

Lemma hyphen_title_idem s : hyphen_title (hyphen_title s) = hyphen_title s.
Proof.
  unfold hyphen_title at 1. rewrite split_hyphen_title, map_map.
  unfold hyphen_title. f_equal. apply map_ext, capitalize_idem.
Qed.

(** A name the loop leaves alone matches the ability pattern exactly when
    each of its segments is non-empty and all letters. *)
Lemma matches_ability_re_fixed s :
  hyphen_title s = s ->
  matches_ability_re s
  = forallb (fun seg => nonempty seg && all_chars is_alpha seg) (split hyphen s).
Proof.
  intros H. unfold matches_ability_re.
  rewrite <- H at 1. rewrite split_hyphen_title.
  induction (split hyphen s) as [|p ps IH]; simpl; [reflexivity|].
  rewrite matches_type_re_capitalize, IH. reflexivity.
Qed.

End TextFacts.

(* ------------------------------------------------------------------ *)
(** ** Keep-lowest-id deduplication: one row per key *)
(* ------------------------------------------------------------------ *)

Lemma fold_min_le (b : Z) (l : list Z) :
  fold_right Z.min b l <= b /\ forall x, In x l -> fold_right Z.min b l <= x.
Proof.
  induction l as [|y l [IHb IHl]]; simpl.
  - split; [lia | contradiction].
  - split; [lia|]. intros x [->|Hx]; [lia|]. specialize (IHl x Hx). lia.
Qed.

Lemma fold_min_in (b : Z) (l : list Z) :
  fold_right Z.min b l = b \/ In (fold_right Z.min b l) l.
Proof.
  induction l as [|y l IH]; simpl; [left; reflexivity|].
  destruct (Z.min_spec y (fold_right Z.min b l)) as [[_ E]|[_ E]]; rewrite E.
  - right. left. reflexivity.
  - destruct IH as [IH|IH]; [left; exact IH | right; right; exact IH].
Qed.

(** With the base among the elements, the fold is the least element. *)
Lemma fold_min_base (b1 b2 : Z) (l : list Z) :
  In b1 l -> In b2 l -> fold_right Z.min b1 l = fold_right Z.min b2 l.
Proof.
  intros H1 H2.
  destruct (fold_min_le b1 l) as [_ L1]. destruct (fold_min_le b2 l) as [_ L2].
  destruct (fold_min_in b1 l) as [E1|I1]; destruct (fold_min_in b2 l) as [E2|I2].
  - pose proof (L1 _ H2). pose proof (L2 _ H1). lia.
  - pose proof (L1 _ I2). pose proof (L2 _ H1). lia.
  - pose proof (L1 _ H2). pose proof (L2 _ I1). lia.
  - pose proof (L1 _ I2). pose proof (L2 _ I1). lia.
Qed.

Lemma NoDup_map_inj_in {A B} (f : A -> B) (l : list A) (a b : A) :
  NoDup (map f l) -> In a l -> In b l -> f a = f b -> a = b.
Proof.
  induction l as [|x l IH]; simpl; [contradiction|].
  intros N Ha Hb E. inversion N as [|? ? Hx N']; subst.
  destruct Ha as [->|Ha]; destruct Hb as [->|Hb]; auto.
  - exfalso. apply Hx. rewrite E. apply in_map, Hb.
  - exfalso. apply Hx. rewrite <- E. apply in_map, Ha.
Qed.

Section DedupFacts.
Context {row key : Type}.
Variable id : row -> Z.
Variable key_of : row -> key.
Variable key_eqb : key -> key -> bool.
Hypothesis key_eqb_eq : forall a b, key_eqb a b = true <-> a = b.

Lemma same_group_refl r : same_group key_of key_eqb r r = true.
Proof. unfold same_group. apply key_eqb_eq. reflexivity. Qed.

Lemma group_members rows r x :
  In x (filter (same_group key_of key_eqb r) rows)
  <-> In x rows /\ key_of x = key_of r.
Proof.
  rewrite filter_In. unfold same_group. rewrite key_eqb_eq. reflexivity.
Qed.

(** The minimum of a group is the identifier of one of its rows. *)
Lemma group_min_attained rows r :
  In r rows ->
  exists m, In m rows /\ key_of m = key_of r /\ id m = group_min id key_of key_eqb rows r.
Proof.
  intros Hr. unfold group_min.
  destruct (fold_min_in (id r)
              (map id (filter (same_group key_of key_eqb r) rows))) as [E|I].
  - exists r. rewrite E. auto.
  - apply in_map_iff in I as (m & Em & Hm).
    apply group_members in Hm as [Hm Hk]. exists m. auto.
Qed.

Lemma group_min_same_key rows r r' :
  In r rows -> In r' rows -> key_of r = key_of r' ->
  group_min id key_of key_eqb rows r = group_min id key_of key_eqb rows r'.
Proof.
  intros Hr Hr' E. unfold group_min.
  assert (F : filter (same_group key_of key_eqb r) rows
              = filter (same_group key_of key_eqb r') rows).
  { apply filter_ext. intros x. unfold same_group. rewrite E. reflexivity. }
  rewrite F. apply fold_min_base; apply in_map; apply group_members; auto.
Qed.

Lemma delete_not_min_In rows r :
  In r (delete_not_min id key_of key_eqb rows)
  <-> In r rows /\ In (id r) (min_ids id key_of key_eqb rows).
Proof.
  unfold delete_not_min. rewrite filter_In, existsb_exists.
  split; intros [H1 H2]; split; auto.
  - destruct H2 as (x & Hx & E). apply Z.eqb_eq in E. rewrite E. exact Hx.
  - exists (id r). split; [exact H2 | apply Z.eqb_refl].
Qed.

(** With distinct identifiers, a surviving row carries the least
    identifier of its own group. *)
Lemma survivor_is_min rows r :
  NoDup (map id rows) ->
  In r (delete_not_min id key_of key_eqb rows) ->
  id r = group_min id key_of key_eqb rows r.
Proof.
  intros N H. apply delete_not_min_In in H as [Hr Hm].
  unfold min_ids in Hm. apply in_map_iff in Hm as (r' & E & Hr').
  destruct (group_min_attained rows r' Hr') as (m & Hm & Hk & Hid).
  assert (m = r) by (apply (NoDup_map_inj_in id rows); auto; congruence).
  subst m. rewrite <- E. apply group_min_same_key; auto.
Qed.

(** The lowest row of each group survives. *)
Lemma min_survives rows r :
  In r rows -> id r = group_min id key_of key_eqb rows r ->
  In r (delete_not_min id key_of key_eqb rows).
Proof.
  intros Hr E. apply delete_not_min_In. split; [exact Hr|].
  unfold min_ids. rewrite E. apply in_map, Hr.
Qed.

(** After the [DELETE], no two rows share a key. *)
Lemma delete_not_min_unique rows :
  NoDup (map id rows) ->
  NoDup (map key_of (delete_not_min id key_of key_eqb rows)).
Proof.
  intros N. apply NoDup_map_NoDup_ForallPairs.
  - intros a b Ha Hb E.
    pose proof (survivor_is_min rows a N Ha) as Ea.
    pose proof (survivor_is_min rows b N Hb) as Eb.
    apply delete_not_min_In in Ha as [Ha _]. apply delete_not_min_In in Hb as [Hb _].
    apply (NoDup_map_inj_in id rows); auto.
    rewrite Ea, Eb. apply group_min_same_key; auto.
  - unfold delete_not_min. apply NoDup_filter. apply (NoDup_map_inv id), N.
Qed.
End DedupFacts.

Lemma opt_eqb_eq {A} (eqb : A -> A -> bool) :
  (forall a b, eqb a b = true <-> a = b) ->
  forall x y, opt_eqb eqb x y = true <-> x = y.
Proof.
  intros H [a|] [b|]; simpl; try rewrite H; split; congruence.
Qed.

Lemma tpa_key_eqb_eq a b : tpa_key_eqb a b = true <-> a = b.
Proof.
  destruct a as [[x1 y1] z1], b as [[x2 y2] z2]. unfold tpa_key_eqb.
  rewrite !andb_true_iff, !(opt_eqb_eq Z.eqb Z.eqb_eq).
  split; [intros [[-> ->] ->]; reflexivity | intros E; inversion E; auto].
Qed.

(* ------------------------------------------------------------------ *)
(** ** What one cleaning pass does to each table *)
(* ------------------------------------------------------------------ *)

Lemma ability_updates_cons (id : Z) (name : string) (rows : list (Z * string)) :
  ability_updates ((id, name) :: rows)
  = ((if String.eqb (Text.hyphen_title name) name then []
      else [Clean.update_ability_name (Text.hyphen_title name) id])
     ++ ability_updates rows)%list.
Proof. reflexivity. Qed.

Lemma run_all_app (l1 l2 : list (database -> database)) (d : database) :
  run_all (l1 ++ l2) d = run_all l2 (run_all l1 d).
Proof. unfold run_all. apply fold_left_app. Qed.

Lemma cleaned_unfold (db : database) :
  cleaned db
  = run_all (ability_updates (Clean.select_named_abilities (after_fixed db)))
            (after_fixed db).
Proof.
  rewrite cleaned_run. unfold clean_script.
  rewrite !run_all_app. reflexivity.
Qed.

(** The loop's updates write the ability table only. *)
Lemma ability_updates_frame (rows : list (Z * string)) (d : database) :
  types (run_all (ability_updates rows) d) = types d
  /\ pokemon (run_all (ability_updates rows) d) = pokemon d
  /\ trainers (run_all (ability_updates rows) d) = trainers d
  /\ trainer_pokemon_abilities (run_all (ability_updates rows) d)
     = trainer_pokemon_abilities d.
Proof.
  revert d. induction rows as [|[id name] rows IH]; intros d.
  - repeat split.
  - rewrite ability_updates_cons, run_all_app.
    destruct (String.eqb (Text.hyphen_title name) name).
    + apply IH.
    + match goal with
      | |- context [run_all (ability_updates rows) ?d'] =>
          destruct (IH d') as (H1 & H2 & H3 & H4)
      end.
      rewrite H1, H2, H3, H4. repeat split.
Qed.

Lemma cleaned_tpa (db : database) :
  trainer_pokemon_abilities (cleaned db)
  = delete_not_min tpa_id tpa_key tpa_key_eqb (trainer_pokemon_abilities db).
Proof.
  rewrite cleaned_unfold.
  destruct (ability_updates_frame
              (Clean.select_named_abilities (after_fixed db)) (after_fixed db))
    as (_ & _ & _ & H).
  rewrite H. reflexivity.
Qed.

Lemma cleaned_types (db : database) :
  types (cleaned db)
  = map Clean.title_type
        (delete_not_min type_id type_name name_key_eqb (types db)).
Proof.
  rewrite cleaned_unfold.
  destruct (ability_updates_frame
              (Clean.select_named_abilities (after_fixed db)) (after_fixed db))
    as (H & _).
  rewrite H. reflexivity.
Qed.

(** The loop leaves every named ability in its hyphen-title form. *)
Lemma ability_updates_fixpoint (rows : list (Z * string)) (d : database) :
  (forall a n, In a (abilities d) -> ability_name a = Some n ->
               Text.hyphen_title n = n \/ In (ability_id a, n) rows) ->
  forall a n, In a (abilities (run_all (ability_updates rows) d)) ->
              ability_name a = Some n -> Text.hyphen_title n = n.
Proof.
  revert d. induction rows as [|[id name] rows IH]; intros d Inv.
  - intros a n Ha Hn. destruct (Inv a n Ha Hn) as [H|[]]. exact H.
  - rewrite ability_updates_cons, run_all_app.
    destruct (String.eqb (Text.hyphen_title name) name) eqn:E.
    + apply IH. intros a n Ha Hn.
      destruct (Inv a n Ha Hn) as [H|[H|H]]; auto.
      inversion H; subst. left. apply String.eqb_eq, E.
    + apply IH. intros a n Ha Hn.
      unfold run_all in Ha. cbn [fold_left Clean.update_ability_name
        Clean.set_abilities abilities] in Ha.
      apply in_map_iff in Ha as (a0 & Ea & Ha0).
      destruct (Z.eqb (ability_id a0) id) eqn:Eid.
      * subst a. cbn in Hn. inversion Hn; subst.
        left. apply TextFacts.hyphen_title_idem.
      * subst a0. destruct (Inv a n Ha0 Hn) as [H|[H|H]]; auto.
        inversion H; subst. rewrite Z.eqb_refl in Eid. discriminate.
Qed.

Lemma select_named_abilities_complete (d : database) (a : ability_row) (n : string) :
  In a (abilities d) -> ability_name a = Some n ->
  In (ability_id a, n) (Clean.select_named_abilities d).
Proof.
  intros Ha Hn. unfold Clean.select_named_abilities.
  apply in_flat_map. exists a. split; [exact Ha|]. rewrite Hn. left. reflexivity.
Qed.

Lemma cleaned_abilities_fixed (db : database) (a : ability_row) (n : string) :
  In a (abilities (cleaned db)) -> ability_name a = Some n ->
  Text.hyphen_title n = n.
Proof.
  rewrite cleaned_unfold. apply ability_updates_fixpoint.
  intros a0 n0 Ha0 Hn0. right. apply select_named_abilities_complete; assumption.
Qed.

(* ------------------------------------------------------------------ *)
(** ** The cleaning pass: claims *)
(* ------------------------------------------------------------------ *)

(** C1.  The cleaning pass is not idempotent.  On a store holding the
    types [fire] and [Fire] the first pass keeps both rows, because the
    duplicates are removed before the names are put in title case, and
    leaves them both named [Fire]; a second pass then deletes the row with
    the larger identifier. *)
Theorem C1_second_pass_changes_the_store :
  types (cleaned Sample.near_duplicates)
    = [Sample.type_ 1 "Fire"; Sample.type_ 2 "Fire"]
  /\ types (cleaned (cleaned Sample.near_duplicates)) = [Sample.type_ 1 "Fire"]
  /\ cleaned (cleaned Sample.near_duplicates) <> cleaned Sample.near_duplicates.
Proof.
  assert (H1 : types (cleaned Sample.near_duplicates)
               = [Sample.type_ 1 "Fire"; Sample.type_ 2 "Fire"])
    by (vm_compute; reflexivity).
  assert (H2 : types (cleaned (cleaned Sample.near_duplicates))
               = [Sample.type_ 1 "Fire"])
    by (vm_compute; reflexivity).
  repeat split; auto.
  intros E. rewrite E, H1 in H2. discriminate.
Qed.

(** C2.  After one cleaning pass two Type rows, two Ability rows, two
    Trainer rows and two Creature rows can carry the same key: the rows
    of [Sample.near_duplicates] become equal only through the casing and
    misspelling updates, which run after the deduplication. *)
Theorem C2_duplicates_survive_cleaning :
  cleaned Sample.near_duplicates
  = {| types := [Sample.type_ 1 "Fire"; Sample.type_ 2 "Fire"];
       abilities := [Sample.ability 1 "Grass"; Sample.ability 2 "Grass"];
       pokemon := [Sample.creature 1 "Pikachu" 1 None;
                   Sample.creature 2 "Pikachu" 1 None];
       trainers := [Sample.trainer 1 "Misty"; Sample.trainer 2 "Misty"];
       trainer_pokemon_abilities := [Sample.grant 1 1 1 1] |}
  /\ ~ Invariant.unique_type_names (cleaned Sample.near_duplicates)
  /\ ~ Invariant.unique_ability_names (cleaned Sample.near_duplicates)
  /\ ~ Invariant.unique_trainer_names (cleaned Sample.near_duplicates)
  /\ ~ Invariant.unique_pokemon_keys (cleaned Sample.near_duplicates).
Proof.
  assert (E : cleaned Sample.near_duplicates
              = {| types := [Sample.type_ 1 "Fire"; Sample.type_ 2 "Fire"];
                   abilities := [Sample.ability 1 "Grass"; Sample.ability 2 "Grass"];
                   pokemon := [Sample.creature 1 "Pikachu" 1 None;
                               Sample.creature 2 "Pikachu" 1 None];
                   trainers := [Sample.trainer 1 "Misty"; Sample.trainer 2 "Misty"];
                   trainer_pokemon_abilities := [Sample.grant 1 1 1 1] |})
    by (vm_compute; reflexivity).
  split; [exact E|]. rewrite E.
  unfold Invariant.unique_type_names, Invariant.unique_ability_names,
    Invariant.unique_trainer_names, Invariant.unique_pokemon_keys.
  repeat split; intros N; inversion N as [|? ? Hin _]; apply Hin; left; reflexivity.
Qed.

(** The join-row part of the uniqueness invariant does hold: with distinct
    identifiers, no two join rows share their key after cleaning. *)
Lemma cleaned_tpa_unique (db : database) :
  NoDup (map tpa_id (trainer_pokemon_abilities db)) ->
  Invariant.unique_tpa_keys (cleaned db).
Proof.
  intros N. unfold Invariant.unique_tpa_keys. rewrite cleaned_tpa.
  apply delete_not_min_unique; [apply tpa_key_eqb_eq | exact N].
Qed.

(** C8, as the program has it.  On an open connection the pass is all
    or nothing, and the call always returns normally: when no driver call
    fails the cleaned store is committed; when the first failing call
    raises [sqlite3.Error] the store is left exactly as it was, the cause
    is printed, and nothing is raised to the caller.  An error reaches
    the caller only from a connection that is already closed: line 49,
    before the [try], raises, with nothing printed and the store as it
    was.  Without a connection the call prints and returns. *)
Theorem C8_cleaning_is_all_or_nothing_and_silent
        (faults : nat -> option string) (db : database) :
  ended (clean_database faults (Some (open_on db))) = Returned tt
  /\ match first_fault faults (List.length (clean_script db)) with
     | None =>
         store_after (clean_database faults (Some (open_on db)))
         = Some (cleaned db)
         /\ printed (clean_database faults (Some (open_on db)))
            = ["Starting database cleaning...";
               "Database cleaning finished and changes committed."]
     | Some (_, msg) =>
         store_after (clean_database faults (Some (open_on db))) = Some db
         /\ printed (clean_database faults (Some (open_on db)))
            = ["Starting database cleaning...";
               "An error occurred during database cleaning: " ++ msg]
     end
  /\ clean_database faults (Some (closed_on db))
     = {| store_after := Some db;
          printed := [];
          ended := Raised (sqlite3_Error "Cannot operate on a closed database.") |}
  /\ clean_database faults None
     = {| store_after := None;
          printed := ["Error: Invalid database connection provided for cleaning."];
          ended := Returned tt |}.
Proof.
  rewrite cleaned_run, clean_database_run.
  destruct (first_fault faults (List.length (clean_script db))) as [[k msg]|];
    repeat split.
Qed.

(** C8, as stated, fails: a pass whose first statement raises ends like a
    successful one, and no error reaches the caller. *)
Lemma C8_failure_is_not_reported :
  store_after (clean_database Sample.first_call_fails
                 (Some (open_on Sample.near_duplicates)))
    = Some Sample.near_duplicates
  /\ ended (clean_database Sample.first_call_fails
               (Some (open_on Sample.near_duplicates)))
     = ended (clean_database no_faults (Some (open_on Sample.near_duplicates)))
  /\ ~ exists e,
         ended (clean_database Sample.first_call_fails
                  (Some (open_on Sample.near_duplicates)))
         = Raised e.
Proof.
  repeat split; try reflexivity.
  intros [e H]. vm_compute in H. discriminate.
Qed.

(** C9, as the program has it.  After the cleaning pass every Type name
    has its first character upper-cased and the others lower-cased; and,
    in a store whose Ability names are ASCII, every Ability name has each
    hyphen-separated segment so cased.  Such a name matches its pattern
    exactly when it (each segment of it) is non-empty and made of letters
    only. *)
Theorem C9_names_are_cased_after_cleaning (db : database) :
  Forall (fun t => cased_type_name (type_name t)) (types (cleaned db))
  /\ (Forall (fun a => ascii_name (ability_name a) = true) (abilities db) ->
      Forall (fun a => cased_ability_name (ability_name a))
             (abilities (cleaned db))).
Proof.
  split; [|intros _]; apply Forall_forall.
  - intros t Ht. rewrite cleaned_types in Ht.
    apply in_map_iff in Ht as (t0 & <- & _).
    unfold Clean.title_type, cased_type_name; cbn [type_name].
    destruct (type_name t0) as [n|]; [|exact I].
    rewrite !TextFacts.sql_title_capitalize.
    split; [apply TextFacts.capitalize_idem|].
    apply TextFacts.matches_type_re_fixed, TextFacts.capitalize_idem.
  - intros a Ha. unfold cased_ability_name.
    destruct (ability_name a) as [n|] eqn:En; [|exact I].
    pose proof (cleaned_abilities_fixed db a n Ha En) as H.
    split; [exact H | apply TextFacts.matches_ability_re_fixed, H].
Qed.

Lemma C9_on_sample :
  Forall (fun a => cased_ability_name (ability_name a))
         (abilities (cleaned Sample.near_duplicates)).
Proof.
  apply (proj2 (C9_names_are_cased_after_cleaning Sample.near_duplicates)).
  repeat constructor.
Defined.

(** C9, as stated, fails: a Type named [???] and an Ability named
    [Soul_heart] keep names that match neither pattern. *)
Lemma C9_names_outside_the_patterns :
  ~ Invariant.canonical_type_names (cleaned Sample.odd_names)
  /\ ~ Invariant.canonical_ability_names (cleaned Sample.odd_names).
Proof.
  split; intros H.
  - specialize (H (Sample.type_ 1 "???") "???").
    assert (E : Text.matches_type_re "???" = true)
      by (apply H; [vm_compute; left; reflexivity | reflexivity]).
    vm_compute in E. discriminate.
  - specialize (H (Sample.ability 1 "Soul_heart") "Soul_heart").
    assert (E : Text.matches_ability_re "Soul_heart" = true)
      by (apply H; [vm_compute; left; reflexivity | reflexivity]).
    vm_compute in E. discriminate.
Qed.

(* ------------------------------------------------------------------ *)
(** ** Join rows with dangling references *)
(* ------------------------------------------------------------------ *)

Lemma flat_map_all_nil {A B} (f : A -> list B) (l : list A) :
  (forall x, In x l -> f x = []) -> flat_map f l = [].
Proof.
  induction l as [|x l IH]; simpl; intros H; [reflexivity|].
  rewrite (H x (or_introl eq_refl)), IH; [reflexivity|].
  intros y Hy. apply H. right. exact Hy.
Qed.

Lemma flat_map_filter_nil {A B} (f : A -> list B) (keep : A -> bool) (l : list A) :
  (forall x, In x l -> keep x = false -> f x = []) ->
  flat_map f (filter keep l) = flat_map f l.
Proof.
  induction l as [|x l IH]; simpl; intros H; [reflexivity|].
  assert (IH' : flat_map f (filter keep l) = flat_map f l)
    by (apply IH; intros y Hy; apply H; right; exact Hy).
  destruct (keep x) eqn:E; simpl; rewrite IH'; [reflexivity|].
  rewrite (H x (or_introl eq_refl) E). reflexivity.
Qed.

Lemma flat_map_ext_on {A B} (f g : A -> list B) (l : list A) :
  (forall x, In x l -> f x = g x) -> flat_map f l = flat_map g l.
Proof.
  induction l as [|x l IH]; simpl; intros H; [reflexivity|].
  rewrite (H x (or_introl eq_refl)), IH; [reflexivity|].
  intros y Hy. apply H. right. exact Hy.
Qed.

Lemma references_false {row : Type} (id : row -> Z) (rows : list row)
      (ref : option Z) (r : row) :
  references id rows ref = false -> In r rows -> sql_eq_id ref (id r) = false.
Proof.
  unfold references. intros H Hr.
  destruct (sql_eq_id ref (id r)) eqn:E; [|reflexivity].
  assert (T : existsb (fun r => sql_eq_id ref (id r)) rows = true)
    by (apply existsb_exists; exists r; auto).
  congruence.
Qed.

Lemma references_true {row : Type} (id : row -> Z) (rows : list row)
      (ref : option Z) (r : row) :
  In r rows -> sql_eq_id ref (id r) = true -> references id rows ref = true.
Proof.
  intros Hr E. unfold references. apply existsb_exists. exists r. auto.
Qed.

Lemma pokemon_by_ability_skips_dangling (name : string) (db : database) :
  Select.pokemon_by_ability name (only_joins joins_ability db)
  = Select.pokemon_by_ability name db.
Proof.
  unfold Select.pokemon_by_ability, only_joins. cbn [Clean.set_tpa pokemon
    abilities trainer_pokemon_abilities].
  apply flat_map_ext_on. intros p Hp.
  apply flat_map_filter_nil. intros j _ Hkeep.
  destruct (sql_eq_id (tpa_pokemon_id j) (pokemon_id p)) eqn:E; [|reflexivity].
  unfold joins_ability in Hkeep.
  rewrite (references_true pokemon_id _ _ p Hp E) in Hkeep. simpl in Hkeep.
  apply flat_map_all_nil. intros a Ha.
  rewrite (references_false ability_id _ _ a Hkeep Ha). reflexivity.
Qed.

Lemma abilities_by_pokemon_skips_dangling (name : string) (db : database) :
  Select.abilities_by_pokemon name (only_joins joins_ability db)
  = Select.abilities_by_pokemon name db.
Proof.
  unfold Select.abilities_by_pokemon, only_joins. cbn [Clean.set_tpa pokemon
    abilities trainer_pokemon_abilities].
  apply flat_map_ext_on. intros a Ha.
  apply flat_map_filter_nil. intros j _ Hkeep.
  destruct (sql_eq_id (tpa_ability_id j) (ability_id a)) eqn:E; [|reflexivity].
  unfold joins_ability in Hkeep.
  rewrite (references_true ability_id _ _ a Ha E), andb_true_r in Hkeep.
  apply flat_map_all_nil. intros p Hp.
  rewrite (references_false pokemon_id _ _ p Hkeep Hp). reflexivity.
Qed.

Lemma trainers_by_pokemon_skips_dangling (name : string) (db : database) :
  Select.trainers_by_pokemon name (only_joins joins_trainer db)
  = Select.trainers_by_pokemon name db.
Proof.
  unfold Select.trainers_by_pokemon, only_joins. cbn [Clean.set_tpa pokemon
    trainers trainer_pokemon_abilities].
  f_equal. apply flat_map_ext_on. intros t Ht.
  apply flat_map_filter_nil. intros j _ Hkeep.
  destruct (sql_eq_id (tpa_trainer_id j) (trainer_id t)) eqn:E; [|reflexivity].
  unfold joins_trainer in Hkeep.
  rewrite (references_true trainer_id _ _ t Ht E) in Hkeep. simpl in Hkeep.
  apply flat_map_all_nil. intros p Hp.
  rewrite (references_false pokemon_id _ _ p Hkeep Hp). reflexivity.
Qed.

(** C10, as the program has it.  The join table after a cleaning pass is
    the join table before it with only its own duplicates removed,
    whatever the pass deletes from the other tables, so the lowest row of
    every key survives.  A join of the query layer produces nothing from
    a join row when a reference that this join goes through points at no
    row: creature or ability for creatures-by-ability and
    abilities-by-creature, trainer or creature for trainers-by-creature.
    A join never looks at the table it does not go through, so the join
    row stays visible to it: trainers-by-creature does not depend on the
    ability table, the other two do not depend on the trainer table. *)
Theorem C10_join_rows_only_deduplicated (db : database) :
  trainer_pokemon_abilities (cleaned db)
  = delete_not_min tpa_id tpa_key tpa_key_eqb (trainer_pokemon_abilities db)
  /\ (forall j, In j (trainer_pokemon_abilities db) ->
                tpa_id j = group_min tpa_id tpa_key tpa_key_eqb
                             (trainer_pokemon_abilities db) j ->
                In j (trainer_pokemon_abilities (cleaned db)))
  /\ (forall name store,
        Select.pokemon_by_ability name (only_joins joins_ability store)
        = Select.pokemon_by_ability name store
        /\ Select.abilities_by_pokemon name (only_joins joins_ability store)
           = Select.abilities_by_pokemon name store
        /\ Select.trainers_by_pokemon name (only_joins joins_trainer store)
           = Select.trainers_by_pokemon name store)
  /\ (forall name store abl trs,
        Select.trainers_by_pokemon name (Clean.set_abilities store abl)
        = Select.trainers_by_pokemon name store
        /\ Select.pokemon_by_ability name (Clean.set_trainers store trs)
           = Select.pokemon_by_ability name store
        /\ Select.abilities_by_pokemon name (Clean.set_trainers store trs)
           = Select.abilities_by_pokemon name store).
Proof.
  split; [apply cleaned_tpa|]. split.
  { intros j Hj Hmin. rewrite cleaned_tpa. apply min_survives; assumption. }
  split; [|intros name store abl trs; repeat split].
  intros name store. repeat split.
  - apply pokemon_by_ability_skips_dangling.
  - apply abilities_by_pokemon_skips_dangling.
  - apply trainers_by_pokemon_skips_dangling.
Qed.

(** C10, as stated, fails: the join row that grants the placeholder
    ability outlives the ability row, no creature-ability join reaches it,
    and yet trainers-by-creature still lists the trainer, from that row
    alone. *)
Lemma C10_dangling_row_still_feeds_a_join :
  abilities (cleaned Sample.sentinel_only) = []
  /\ trainer_pokemon_abilities (cleaned Sample.sentinel_only)
     = [Sample.grant 1 1 1 1]
  /\ joins_ability (cleaned Sample.sentinel_only) (Sample.grant 1 1 1 1) = false
  /\ Select.trainers_by_pokemon "Pikachu" (cleaned Sample.sentinel_only)
     = [Some "Ash"]
  /\ Select.trainers_by_pokemon "Pikachu"
       (only_joins joins_ability (cleaned Sample.sentinel_only))
     <> Select.trainers_by_pokemon "Pikachu" (cleaned Sample.sentinel_only).
Proof.
  assert (E : cleaned Sample.sentinel_only
              = {| types := [Sample.type_ 1 "Electric"];
                   abilities := [];
                   pokemon := [Sample.creature 1 "Pikachu" 1 None];
                   trainers := [Sample.trainer 1 "Ash"];
                   trainer_pokemon_abilities := [Sample.grant 1 1 1 1] |})
    by (vm_compute; reflexivity).
  rewrite E. repeat split. vm_compute. discriminate.
Qed.

(** The join row that grants the placeholder ability outlives the
    ability row, and no join reaches it afterwards. *)
Example placeholder_grant_dangles :
  abilities (cleaned Sample.placeholder_grant) = [Sample.ability 2 "Static"]
  /\ trainer_pokemon_abilities (cleaned Sample.placeholder_grant)
     = [Sample.grant 1 1 1 1; Sample.grant 2 1 1 2]
  /\ joins_ability (cleaned Sample.placeholder_grant) (Sample.grant 1 1 1 1) = false
  /\ Select.abilities_by_pokemon "Pikachu" (cleaned Sample.placeholder_grant)
     = [Some "Static"].
Proof. vm_compute. repeat split. Qed.

Lemma C10_placeholder_grant_survives :
  In (Sample.grant 1 1 1 1)
     (trainer_pokemon_abilities (cleaned Sample.placeholder_grant)).
Proof.
  apply (proj1 (proj2 (C10_join_rows_only_deduplicated Sample.placeholder_grant))).
  - simpl. left. reflexivity.
  - reflexivity.
Defined.

(* ------------------------------------------------------------------ *)
(** ** The endpoints: what a request gets *)
(* ------------------------------------------------------------------ *)

Section ServiceFacts.
Variable faults : nat -> option string.
Variable requests_get : string -> api_response.
Variable rnd : nat.

Lemma connect_db_disk (h : host) (conn : database) :
  connect_db h = Some conn -> conn = disk h.
Proof.
  unfold connect_db. destruct (db_file_exists h); simpl; [|discriminate].
  destruct (connect_error h); congruence.
Qed.

(** [with conn.cursor() as cursor:] raises before its body runs, and the
    enclosing [with conn:] rolls back. *)
Lemma with_cursor_raises {A} (conn : database) (body : sql A) :
  with_connection faults conn (with_ sqlite3_Cursor body)
  = {| disk_after := conn; reply := Raised cursor_type_error |}.
Proof. reflexivity. Qed.

Lemma get_pokemon_by_ability_reply (h : host) (name : string) :
  get_pokemon_by_ability faults h name
  = match connect_db h with
    | None => connection_failed h
    | Some conn => {| disk_after := conn; reply := Raised cursor_type_error |}
    end.
Proof. reflexivity. Qed.

Lemma get_pokemon_by_type_reply (h : host) (name : string) :
  get_pokemon_by_type faults h name
  = match connect_db h with
    | None => connection_failed h
    | Some conn => {| disk_after := conn; reply := Raised cursor_type_error |}
    end.
Proof. reflexivity. Qed.

Lemma get_trainers_by_pokemon_reply (h : host) (name : string) :
  get_trainers_by_pokemon faults h name
  = match connect_db h with
    | None => connection_failed h
    | Some conn => {| disk_after := conn; reply := Raised cursor_type_error |}
    end.
Proof. reflexivity. Qed.

Lemma get_abilities_by_pokemon_reply (h : host) (name : string) :
  get_abilities_by_pokemon faults h name
  = match connect_db h with
    | None => connection_failed h
    | Some conn => {| disk_after := conn; reply := Raised cursor_type_error |}
    end.
Proof. reflexivity. Qed.

Lemma add_trainer_pokemon_abilities_reply (h : host) (name : string) :
  add_trainer_pokemon_abilities faults requests_get rnd h name
  = match connect_db h with
    | None => connection_failed h
    | Some conn =>
        {| disk_after := conn;
           reply := Raised (HTTPException 500 "Internal server error.") |}
    end.
Proof. reflexivity. Qed.

(** No request changes the committed store. *)
Lemma serve_leaves_disk (h : host) (req : request) :
  serve faults requests_get rnd h req = disk h.
Proof.
  destruct req; cbn [serve]; try reflexivity.
  - rewrite get_pokemon_by_ability_reply.
    destruct (connect_db h) eqn:E; [apply connect_db_disk, E | reflexivity].
  - rewrite get_pokemon_by_type_reply.
    destruct (connect_db h) eqn:E; [apply connect_db_disk, E | reflexivity].
  - rewrite get_trainers_by_pokemon_reply.
    destruct (connect_db h) eqn:E; [apply connect_db_disk, E | reflexivity].
  - rewrite get_abilities_by_pokemon_reply.
    destruct (connect_db h) eqn:E; [apply connect_db_disk, E | reflexivity].
  - rewrite add_trainer_pokemon_abilities_reply.
    destruct (connect_db h) eqn:E; [apply connect_db_disk, E | reflexivity].
Qed.

(** *** The statements under the cursor, taken on their own *)

(** A query that finds no row gives the empty list. *)
Lemma get_pokemon_by_ability_body_empty (name : string) (s : cursor_state) :
  faults (calls s) = None ->
  Select.pokemon_by_ability name (work s) = [] ->
  exists s', get_pokemon_by_ability_body faults name s = Returned ([], s').
Proof.
  intros F E. unfold get_pokemon_by_ability_body, bind, query, ret.
  rewrite F, E. eexists. reflexivity.
Qed.

(** A creature found in the first type slot is listed, whatever the
    casing of the argument. *)
Lemma pokemon_by_type_slot1 (name : string) (db : database)
      (p : pokemon_row) (t : type_row) :
  In p (pokemon db) -> In t (types db) ->
  type1_id p = Some (type_id t) ->
  sql_eq_nocase (type_name t) name = true ->
  In (pokemon_name p) (Select.pokemon_by_type name db).
Proof.
  intros Hp Ht E1 En. unfold Select.pokemon_by_type.
  apply in_flat_map. exists p. split; [exact Hp|].
  apply in_flat_map. exists t. split; [exact Ht|].
  rewrite E1. simpl. rewrite Z.eqb_refl, En. simpl.
  unfold Select.left_join_types.
  destruct (filter _ (types db)) as [|t2 ts]; simpl; auto.
Qed.

(** The ingest statements reject a name that is already stored, before
    any write. *)
Lemma add_body_already_exists (name : string) (s : cursor_state) (i : Z) :
  faults (calls s) = None ->
  Select.pokemon_id_by_name name (work s) = Some i ->
  add_trainer_pokemon_abilities_body faults requests_get rnd name s
  = Raised (HTTPException 400 "Pokémon already exists in the database.").
Proof.
  intros F E. unfold add_trainer_pokemon_abilities_body, bind, query.
  rewrite F, E. reflexivity.
Qed.

(** The ingest statements reject a name the lookup service does not
    know, before any write. *)
Lemma add_body_not_found (name : string) (s : cursor_state) :
  faults (calls s) = None ->
  Select.pokemon_id_by_name name (work s) = None ->
  status_code (requests_get name) <> 200 ->
  add_trainer_pokemon_abilities_body faults requests_get rnd name s
  = Raised (HTTPException 404 "Pokémon not found in PokéAPI.").
Proof.
  intros F E H. unfold add_trainer_pokemon_abilities_body, bind, query.
  rewrite F, E. apply Z.eqb_neq in H. rewrite H. reflexivity.
Qed.
End ServiceFacts.

Lemma sample_pikachu_post_cleaning : Invariant.post_cleaning Sample.pikachu.
Proof.
  unfold Invariant.post_cleaning, Invariant.unique_type_names,
    Invariant.unique_ability_names, Invariant.unique_trainer_names,
    Invariant.unique_pokemon_keys, Invariant.unique_tpa_keys,
    Invariant.canonical_type_names, Invariant.canonical_ability_names,
    Invariant.named_trainers.
  repeat split; try (repeat constructor; simpl; tauto).
  - intros t n [<-|[]] E. inversion E. reflexivity.
  - intros a n [<-|[]] E. inversion E. reflexivity.
  - intros t [<-|[]]. reflexivity.
Qed.

(* ------------------------------------------------------------------ *)
(** ** The endpoints: claims *)
(* ------------------------------------------------------------------ *)

(** The ingest statements, had a cursor been in scope, store the names
    exactly as the lookup service spells them: next to [Electric] and
    [Static] they insert [electric] and [static]. *)
Example add_body_inserts_raw_names :
  exists r s,
    add_trainer_pokemon_abilities_body no_faults Sample.pokeapi 0 "raichu"
      {| work := Sample.pikachu; calls := 0 |} = Returned (r, s)
    /\ inserted_ids r = [2]
    /\ types (work s) = [Sample.type_ 1 "Electric"; Sample.type_ 2 "electric"]
    /\ abilities (work s) = [Sample.ability 1 "Static"; Sample.ability 2 "static"]
    /\ pokemon (work s) = [Sample.creature 1 "Pikachu" 1 None;
                           Sample.creature 2 "raichu" 2 None]
    /\ trainer_pokemon_abilities (work s)
       = [Sample.grant 1 1 1 1; Sample.grant 2 1 2 2].
Proof. vm_compute. do 2 eexists. repeat split. Qed.

(** C4.  Ingesting [raichu], which the store does not hold and the lookup
    service answers with abilities [static] and types [electric], creates
    no row and returns no [inserted_ids]: the request ends in the server
    error the handler raises for an unexpected exception. *)
Theorem C4_ingest_of_a_new_creature_fails :
  Select.pokemon_id_by_name "raichu" Sample.pikachu = None
  /\ json (Sample.pokeapi "raichu")
     = {| data_abilities := ["static"]; data_types := ["electric"] |}
  /\ add_trainer_pokemon_abilities no_faults Sample.pokeapi 0
       (Sample.reachable Sample.pikachu) "raichu"
     = {| disk_after := Sample.pikachu;
          reply := Raised (HTTPException 500 "Internal server error.") |}.
Proof. repeat split. Qed.

(** C5.  Querying creatures by type [electric] on a cleaned store that
    holds Pikachu of type Electric answers with a server error instead of
    a list; and the statement of trainers-by-creature compares the
    creature name with a case-sensitive [=], unlike the statement of
    abilities-by-creature. *)
Theorem C5_lookups_are_not_case_insensitive :
  fastapi (reply (get_pokemon_by_type no_faults
                    (Sample.reachable Sample.pikachu) "electric"))
  = HttpError 500 "Internal Server Error"
  /\ Select.trainers_by_pokemon "Pikachu" Sample.pikachu = [Some "Ash"]
  /\ Select.trainers_by_pokemon "pikachu" Sample.pikachu = []
  /\ Select.abilities_by_pokemon "pikachu" Sample.pikachu = [Some "Static"].
Proof. repeat split. Qed.

(** C6.  Querying creatures by an ability no creature has answers with a
    server error, not with an empty list, although the store is there and
    the driver reports no failure. *)
Theorem C6_empty_result_is_an_error :
  connect_db (Sample.reachable Sample.pikachu) = Some Sample.pikachu
  /\ Select.pokemon_by_ability "levitate" Sample.pikachu = []
  /\ reply (get_pokemon_by_ability no_faults
              (Sample.reachable Sample.pikachu) "levitate")
     = Raised cursor_type_error
  /\ fastapi (reply (get_pokemon_by_ability no_faults
                       (Sample.reachable Sample.pikachu) "levitate"))
     = HttpError 500 "Internal Server Error".
Proof. repeat split. Qed.

(** C7.  Ingesting a name the store already holds, or a name the lookup
    service does not know, leaves the store unchanged but answers with
    the server error of the handler's catch-all, not with the client
    errors 400 and 404. *)
Theorem C7_rejections_are_server_errors :
  Select.pokemon_id_by_name "Pikachu" Sample.pikachu = Some 1
  /\ add_trainer_pokemon_abilities no_faults Sample.pokeapi 0
       (Sample.reachable Sample.pikachu) "Pikachu"
     = {| disk_after := Sample.pikachu;
          reply := Raised (HTTPException 500 "Internal server error.") |}
  /\ status_code (Sample.pokeapi "mew") = 404
  /\ add_trainer_pokemon_abilities no_faults Sample.pokeapi 0
       (Sample.reachable Sample.pikachu) "mew"
     = {| disk_after := Sample.pikachu;
          reply := Raised (HTTPException 500 "Internal server error.") |}.
Proof. repeat split. Qed.

(* ------------------------------------------------------------------ *)
(** ** The deduplication statements: further properties *)
(* ------------------------------------------------------------------ *)

Lemma fold_min_const (b : Z) (l : list Z) :
  (forall x, In x l -> x = b) -> fold_right Z.min b l = b.
Proof.
  induction l as [|y l IH]; simpl; intros H; [reflexivity|].
  rewrite IH by (intros x Hx; apply H; right; exact Hx).
  rewrite (H y (or_introl eq_refl)). apply Z.min_id.
Qed.

Lemma filter_all {A} (f : A -> bool) (l : list A) :
  (forall x, In x l -> f x = true) -> filter f l = l.
Proof.
  induction l as [|x l IH]; simpl; intros H; [reflexivity|].
  rewrite (H x (or_introl eq_refl)), IH; [reflexivity|].
  intros y Hy. apply H. right. exact Hy.
Qed.

Lemma NoDup_map_filter {A B} (f : A -> B) (keep : A -> bool) (l : list A) :
  NoDup (map f l) -> NoDup (map f (filter keep l)).
Proof.
  induction l as [|x l IH]; simpl; intros N; [constructor|].
  inversion N as [|? ? Hx N']; subst.
  destruct (keep x); simpl; [constructor|]; auto.
  intros Hin. apply Hx. apply in_map_iff in Hin as (y & E & Hy).
  apply filter_In in Hy as [Hy _]. rewrite <- E. apply in_map, Hy.
Qed.

Section DedupMore.
Context {row key : Type}.
Variable id : row -> Z.
Variable key_of : row -> key.
Variable key_eqb : key -> key -> bool.
Hypothesis key_eqb_eq : forall a b, key_eqb a b = true <-> a = b.

(** A table whose keys are already distinct loses no row. *)
Lemma delete_not_min_noop (rows : list row) :
  NoDup (map key_of rows) -> delete_not_min id key_of key_eqb rows = rows.
Proof.
  intros N. unfold delete_not_min. apply filter_all. intros r Hr.
  apply existsb_exists. exists (group_min id key_of key_eqb rows r).
  split; [unfold min_ids; apply in_map, Hr|].
  apply Z.eqb_eq. symmetry. unfold group_min. apply fold_min_const.
  intros x Hx. apply in_map_iff in Hx as (m & <- & Hm).
  apply (group_members key_of key_eqb key_eqb_eq) in Hm as [Hm Hk].
  f_equal. apply (NoDup_map_inj_in key_of rows); assumption.
Qed.

Lemma delete_not_min_idem (rows : list row) :
  NoDup (map id rows) ->
  delete_not_min id key_of key_eqb (delete_not_min id key_of key_eqb rows)
  = delete_not_min id key_of key_eqb rows.
Proof.
  intros N. apply delete_not_min_noop.
  apply delete_not_min_unique; assumption.
Qed.

(** Every key of the table is still there afterwards, on a row whose
    identifier is not larger. *)
Lemma delete_not_min_keeps_key (rows : list row) (r : row) :
  In r rows ->
  exists m, In m (delete_not_min id key_of key_eqb rows)
            /\ key_of m = key_of r /\ id m <= id r.
Proof.
  intros Hr.
  destruct (group_min_attained id key_of key_eqb key_eqb_eq rows r Hr)
    as (m & Hm & Hk & Hid).
  exists m. split; [|split; [exact Hk|]].
  - apply min_survives; [exact Hm|].
    rewrite Hid. symmetry.
    apply (group_min_same_key id key_of key_eqb key_eqb_eq); assumption.
  - rewrite Hid. unfold group_min.
    apply (proj1 (fold_min_le (id r) _)).
Qed.
End DedupMore.

Lemma name_key_eqb_eq a b : name_key_eqb a b = true <-> a = b.
Proof. apply opt_eqb_eq, String.eqb_eq. Qed.

Lemma pokemon_key_eqb_eq a b : pokemon_key_eqb a b = true <-> a = b.
Proof.
  destruct a as [[n1 t1] u1], b as [[n2 t2] u2]. unfold pokemon_key_eqb.
  rewrite !andb_true_iff, (opt_eqb_eq String.eqb String.eqb_eq),
    !(opt_eqb_eq Z.eqb Z.eqb_eq).
  split; [intros [[-> ->] ->]; reflexivity | intros E; inversion E; auto].
Qed.

Lemma dedup_statements_run (db : database) :
  run_all dedup_statements db
  = {| types := delete_not_min type_id type_name name_key_eqb (types db);
       abilities := delete_not_min ability_id ability_name name_key_eqb (abilities db);
       pokemon := delete_not_min pokemon_id pokemon_key pokemon_key_eqb (pokemon db);
       trainers := delete_not_min trainer_id trainer_name name_key_eqb (trainers db);
       trainer_pokemon_abilities :=
         delete_not_min tpa_id tpa_key tpa_key_eqb (trainer_pokemon_abilities db) |}.
Proof. reflexivity. Qed.

Lemma dedup_statements_unique (db : database) :
  distinct_ids db -> distinct_keys (run_all dedup_statements db).
Proof.
  intros (Ht & Ha & Hp & Hr & Hj). rewrite dedup_statements_run.
  unfold distinct_keys; cbn [types abilities pokemon trainers
    trainer_pokemon_abilities].
  repeat split; apply delete_not_min_unique;
    auto using name_key_eqb_eq, pokemon_key_eqb_eq, tpa_key_eqb_eq.
Qed.

Lemma sample_near_duplicates_distinct_ids : distinct_ids Sample.near_duplicates.
Proof.
  unfold distinct_ids. simpl.
  repeat split; repeat constructor; simpl; intuition discriminate.
Qed.

(** X1.  With distinct identifiers in every table, the five DELETE
    statements leave at most one row per GROUP BY key: no two abilities,
    trainers or types with the same name, no two creatures with the same
    (name, type1_id, type2_id), no two join rows with the same
    (trainer_id, pokemon_id, ability_id). *)
Theorem X1_dedup_leaves_one_row_per_key (db : database) :
  distinct_ids db -> distinct_keys (run_all dedup_statements db).
Proof. apply dedup_statements_unique. Qed.

Lemma X1_on_sample : distinct_keys (run_all dedup_statements Sample.near_duplicates).
Proof.
  apply (X1_dedup_leaves_one_row_per_key Sample.near_duplicates).
  exact sample_near_duplicates_distinct_ids.
Defined.

(** X2.  The five DELETE statements lose no key: for every row of a table
    there is, afterwards, a row of that table with the same GROUP BY key
    and an identifier that is not larger. *)
Theorem X2_dedup_keeps_every_key (db : database) :
  Forall (fun r => exists m, In m (types (run_all dedup_statements db))
                             /\ type_name m = type_name r
                             /\ type_id m <= type_id r) (types db)
  /\ Forall (fun r => exists m, In m (abilities (run_all dedup_statements db))
                                /\ ability_name m = ability_name r
                                /\ ability_id m <= ability_id r) (abilities db)
  /\ Forall (fun r => exists m, In m (pokemon (run_all dedup_statements db))
                                /\ pokemon_key m = pokemon_key r
                                /\ pokemon_id m <= pokemon_id r) (pokemon db)
  /\ Forall (fun r => exists m, In m (trainers (run_all dedup_statements db))
                                /\ trainer_name m = trainer_name r
                                /\ trainer_id m <= trainer_id r) (trainers db)
  /\ Forall (fun r => exists m,
                 In m (trainer_pokemon_abilities (run_all dedup_statements db))
                 /\ tpa_key m = tpa_key r /\ tpa_id m <= tpa_id r)
            (trainer_pokemon_abilities db).
Proof.
  rewrite dedup_statements_run.
  cbn [types abilities pokemon trainers trainer_pokemon_abilities].
  repeat split; apply Forall_forall; intros r Hr;
    apply delete_not_min_keeps_key;
    auto using name_key_eqb_eq, pokemon_key_eqb_eq, tpa_key_eqb_eq.
Qed.

(** X3.  The five DELETE statements change nothing in a store whose keys
    are already distinct; so, with distinct identifiers, running them a
    second time changes nothing. *)
Theorem X3_dedup_is_idempotent (db : database) :
  (distinct_keys db -> run_all dedup_statements db = db)
  /\ (distinct_ids db ->
      run_all dedup_statements (run_all dedup_statements db)
      = run_all dedup_statements db).
Proof.
  assert (Noop : forall d, distinct_keys d -> run_all dedup_statements d = d).
  { intros d (Ht & Ha & Hp & Hr & Hj). rewrite dedup_statements_run.
    rewrite !delete_not_min_noop;
      auto using name_key_eqb_eq, pokemon_key_eqb_eq, tpa_key_eqb_eq.
    destruct d; reflexivity. }
  split; [apply Noop|].
  intros H. apply Noop, dedup_statements_unique, H.
Qed.

Lemma X3_on_sample :
  run_all dedup_statements (run_all dedup_statements Sample.near_duplicates)
  = run_all dedup_statements Sample.near_duplicates.
Proof.
  apply (proj2 (X3_dedup_is_idempotent Sample.near_duplicates)).
  exact sample_near_duplicates_distinct_ids.
Defined.

(* ------------------------------------------------------------------ *)
(** ** The pass as one transformation: proofs *)
(* ------------------------------------------------------------------ *)

Lemma cleaned_trainers (db : database) :
  trainers (cleaned db) = trainers (clean_spec db).
Proof.
  rewrite cleaned_unfold.
  destruct (ability_updates_frame
              (Clean.select_named_abilities (after_fixed db)) (after_fixed db))
    as (_ & _ & H & _).
  rewrite H. reflexivity.
Qed.

Lemma repoint_type2_row_fields (ts : list type_row) (p : pokemon_row) :
  pokemon_id (Clean.repoint_type2_row ts p) = pokemon_id p
  /\ pokemon_name (Clean.repoint_type2_row ts p) = pokemon_name p
  /\ type1_id (Clean.repoint_type2_row ts p) = type1_id p.
Proof. unfold Clean.repoint_type2_row. destruct (type2_id p); repeat split. Qed.

Lemma cleaned_pokemon (db : database) :
  pokemon (cleaned db) = pokemon (clean_spec db).
Proof.
  rewrite cleaned_unfold.
  destruct (ability_updates_frame
              (Clean.select_named_abilities (after_fixed db)) (after_fixed db))
    as (_ & H & _).
  rewrite H.
  change (pokemon (after_fixed db))
    with (map (fun p => {| pokemon_id := pokemon_id p;
                           pokemon_name := Clean.fix_pokemon_name (pokemon_name p);
                           type1_id := type1_id p; type2_id := type2_id p |})
              (map (Clean.repoint_type2_row (types (clean_spec db)))
                   (delete_not_min pokemon_id pokemon_key pokemon_key_eqb
                                   (pokemon db)))).
  rewrite map_map. cbn [clean_spec pokemon]. apply map_ext. intros p.
  destruct (repoint_type2_row_fields
              (map Clean.title_type
                   (delete_not_min type_id type_name name_key_eqb (types db))) p)
    as (E1 & E2 & E3).
  unfold cleaned_pokemon_row. cbn [types clean_spec]. rewrite E1, E2, E3.
  reflexivity.
Qed.

Lemma after_fixed_abilities (db : database) :
  abilities (after_fixed db)
  = map (fun a => {| ability_id := ability_id a;
                     ability_name := Clean.fix_ability_name (ability_name a) |})
        (filter (fun a => negb (sql_eq (ability_name a) Clean.sentinel))
                (delete_not_min ability_id ability_name name_key_eqb
                                (abilities db))).
Proof. reflexivity. Qed.

Lemma update_row_cons (id : Z) (name : string) (rows : list (Z * string))
      (a : ability_row) :
  update_row ((id, name) :: rows) a
  = update_row rows
      (if String.eqb (Text.hyphen_title name) name then a
       else if Z.eqb (ability_id a) id
            then {| ability_id := ability_id a;
                    ability_name := Some (Text.hyphen_title name) |}
            else a).
Proof. reflexivity. Qed.

Lemma update_row_app (r1 r2 : list (Z * string)) (a : ability_row) :
  update_row (r1 ++ r2) a = update_row r2 (update_row r1 a).
Proof. unfold update_row. apply fold_left_app. Qed.

(** The loop's updates, seen from each row of the ability table. *)
Lemma run_updates_map (rows : list (Z * string)) (d : database) :
  abilities (run_all (ability_updates rows) d)
  = map (update_row rows) (abilities d).
Proof.
  revert d. induction rows as [|[id name] rows IH]; intros d.
  - cbn. symmetry. apply map_id.
  - rewrite ability_updates_cons, run_all_app, IH.
    destruct (String.eqb (Text.hyphen_title name) name) eqn:E.
    + apply map_ext. intros a. rewrite update_row_cons, E. reflexivity.
    + unfold run_all. cbn [fold_left Clean.update_ability_name
        Clean.set_abilities abilities].
      rewrite map_map. apply map_ext. intros a.
      rewrite update_row_cons, E.
      destruct (Z.eqb (ability_id a) id); reflexivity.
Qed.

Lemma update_row_id (rows : list (Z * string)) (a : ability_row) :
  ability_id (update_row rows a) = ability_id a.
Proof.
  revert a. induction rows as [|[id name] rows IH]; intros a; [reflexivity|].
  rewrite update_row_cons, IH.
  destruct (String.eqb _ name); [reflexivity|].
  destruct (Z.eqb (ability_id a) id); reflexivity.
Qed.

Lemma update_row_other (rows : list (Z * string)) (a : ability_row) :
  (forall i n, In (i, n) rows -> i <> ability_id a) ->
  update_row rows a = a.
Proof.
  induction rows as [|[id name] rows IH]; intros H; [reflexivity|].
  rewrite update_row_cons.
  assert (Hid : Z.eqb (ability_id a) id = false).
  { apply Z.eqb_neq. intros E. apply (H id name); [left; reflexivity|].
    symmetry. exact E. }
  rewrite Hid. destruct (String.eqb _ name); apply IH;
    intros i n Hin; apply (H i n); right; exact Hin.
Qed.

Lemma named_rows_ids (abl : list ability_row) (i : Z) (n : string) :
  In (i, n) (named_rows abl) -> In i (map ability_id abl).
Proof.
  unfold named_rows. intros H. apply in_flat_map in H as (a & Ha & Hin).
  destruct (ability_name a); [|contradiction].
  destruct Hin as [E|[]]. inversion E; subst. apply in_map, Ha.
Qed.

(** With distinct identifiers, the loop puts every named row in
    hyphen-title form and touches nothing else. *)
Lemma update_row_named (abl : list ability_row) (a : ability_row) :
  NoDup (map ability_id abl) -> In a abl ->
  update_row (named_rows abl) a
  = {| ability_id := ability_id a;
       ability_name := option_map Text.hyphen_title (ability_name a) |}.
Proof.
  induction abl as [|x rest IH]; intros N Ha; [contradiction|].
  cbn [map] in N. inversion N as [|? ? Hx N']; subst.
  change (named_rows (x :: rest))
    with ((match ability_name x with
           | Some n => [(ability_id x, n)]
           | None => []
           end ++ named_rows rest)%list).
  rewrite update_row_app.
  destruct Ha as [->|Ha].
  - assert (Hrest : forall b, ability_id b = ability_id a ->
                              update_row (named_rows rest) b = b).
    { intros b Eb. apply update_row_other. intros i n Hin E. apply Hx.
      rewrite <- Eb, <- E. apply (named_rows_ids rest i n Hin). }
    destruct a as [i [n|]]; cbn [ability_name ability_id option_map] in *.
    + rewrite update_row_cons. cbn [ability_id update_row fold_left].
      rewrite Z.eqb_refl.
      destruct (String.eqb (Text.hyphen_title n) n) eqn:E.
      * apply String.eqb_eq in E. rewrite E. apply Hrest. reflexivity.
      * apply Hrest. reflexivity.
    + cbn [update_row fold_left]. apply Hrest. reflexivity.
  - assert (Hne : ability_id x <> ability_id a).
    { intros E. apply Hx. rewrite E. apply in_map, Ha. }
    rewrite (update_row_other _ a); [apply IH; assumption|].
    intros i n Hin E. destruct (ability_name x); [|contradiction].
    destruct Hin as [Hin|[]]. inversion Hin; subst. congruence.
Qed.

Lemma cleaned_abilities (db : database) :
  NoDup (map ability_id (abilities db)) ->
  abilities (cleaned db) = abilities (clean_spec db).
Proof.
  intros N. rewrite cleaned_unfold, run_updates_map.
  change (Clean.select_named_abilities (after_fixed db))
    with (named_rows (abilities (after_fixed db))).
  assert (N1 : NoDup (map ability_id (abilities (after_fixed db)))).
  { rewrite after_fixed_abilities, map_map. cbn [ability_id].
    apply NoDup_map_filter. unfold delete_not_min. apply NoDup_map_filter, N. }
  rewrite (map_ext_in _ (fun a => {| ability_id := ability_id a;
                                     ability_name := option_map Text.hyphen_title
                                                       (ability_name a) |})).
  - rewrite after_fixed_abilities, map_map. reflexivity.
  - intros a Ha. apply update_row_named; assumption.
Qed.

(** X4.  A fault-free cleaning pass is one transformation of the store:
    types are deduplicated by name and title-cased; creatures are
    deduplicated, their second type re-pointed by name and their names
    corrected; trainers are deduplicated, corrected and the nameless ones
    deleted; join rows are deduplicated; and, when the ability identifiers
    are distinct, abilities are deduplicated, the placeholder deleted, the
    names corrected and each hyphen-separated segment capitalised. *)
Theorem X4_cleaning_is_one_transformation (db : database) :
  types (cleaned db) = types (clean_spec db)
  /\ pokemon (cleaned db) = pokemon (clean_spec db)
  /\ trainers (cleaned db) = trainers (clean_spec db)
  /\ trainer_pokemon_abilities (cleaned db)
     = trainer_pokemon_abilities (clean_spec db)
  /\ (NoDup (map ability_id (abilities db)) -> cleaned db = clean_spec db).
Proof.
  assert (Ht := cleaned_types db). assert (Hp := cleaned_pokemon db).
  assert (Hr := cleaned_trainers db). assert (Hj := cleaned_tpa db).
  repeat split; try assumption.
  intros N. pose proof (cleaned_abilities db N) as Ha.
  destruct (cleaned db) as [t a p r j]. cbn [types abilities pokemon trainers
    trainer_pokemon_abilities] in *. subst. reflexivity.
Qed.

Lemma X4_on_sample : cleaned Sample.near_duplicates = clean_spec Sample.near_duplicates.
Proof.
  apply (proj2 (proj2 (proj2 (proj2
           (X4_cleaning_is_one_transformation Sample.near_duplicates))))).
  simpl. repeat constructor; simpl; intuition discriminate.
Defined.

Lemma incl_map_filter {A B} (f : A -> B) (keep : A -> bool) (l : list A) :
  incl (map f (filter keep l)) (map f l).
Proof.
  intros y Hy. apply in_map_iff in Hy as (x & <- & Hx).
  apply filter_In in Hx as [Hx _]. apply in_map, Hx.
Qed.

Lemma cleaned_ability_ids (db : database) :
  map ability_id (abilities (cleaned db))
  = map ability_id
        (filter (fun a => negb (sql_eq (ability_name a) Clean.sentinel))
                (delete_not_min ability_id ability_name name_key_eqb
                                (abilities db))).
Proof.
  rewrite cleaned_unfold, run_updates_map, map_map.
  rewrite (map_ext _ ability_id) by (intros a; apply update_row_id).
  rewrite after_fixed_abilities, map_map. reflexivity.
Qed.

(** X5.  The cleaning pass creates no row and renumbers none: in every
    table the identifiers after the pass are identifiers of the table
    before it, and the Type identifiers that survive the deduplication
    are exactly the ones after the pass. *)
Theorem X5_cleaning_creates_no_row (db : database) :
  incl (map type_id (types (cleaned db))) (map type_id (types db))
  /\ incl (map ability_id (abilities (cleaned db))) (map ability_id (abilities db))
  /\ incl (map pokemon_id (pokemon (cleaned db))) (map pokemon_id (pokemon db))
  /\ incl (map trainer_id (trainers (cleaned db))) (map trainer_id (trainers db))
  /\ incl (trainer_pokemon_abilities (cleaned db)) (trainer_pokemon_abilities db)
  /\ map type_id (types (cleaned db))
     = map type_id (delete_not_min type_id type_name name_key_eqb (types db)).
Proof.
  rewrite cleaned_types, cleaned_ability_ids, cleaned_pokemon, cleaned_trainers,
    cleaned_tpa.
  cbn [clean_spec pokemon trainers]. rewrite !map_map. cbn [type_id pokemon_id].
  repeat split.
  - apply incl_map_filter.
  - eapply incl_tran; [apply incl_map_filter|apply incl_map_filter].
  - apply incl_map_filter.
  - eapply incl_tran; [apply incl_map_filter|].
    rewrite map_map. cbn [trainer_id]. apply incl_map_filter.
  - apply incl_filter.
Qed.

(** X6.  After the cleaning pass no trainer is left with an empty or NULL
    name. *)
Theorem X6_trainers_are_named_after_cleaning (db : database) :
  Forall (fun t => Clean.nameless t = false) (trainers (cleaned db)).
Proof.
  rewrite cleaned_trainers. cbn [clean_spec trainers].
  apply Forall_forall. intros t Ht. apply filter_In in Ht as [_ Ht].
  apply negb_true_iff, Ht.
Qed.

Lemma fix_pokemon_name_not_misspelt (name : option string) :
  misspelt_pokemon (Clean.fix_pokemon_name name) = false.
Proof.
  unfold Clean.fix_pokemon_name, misspelt_pokemon.
  destruct (sql_eq name "Pikuchu") eqn:E1; [reflexivity|].
  destruct (sql_eq name "Charmanderr") eqn:E2; [reflexivity|].
  destruct (sql_eq name "Bulbasuar") eqn:E3; [reflexivity|].
  destruct (sql_eq name "RATtata") eqn:E4; [reflexivity|].
  rewrite E1, E2, E3, E4. reflexivity.
Qed.

Lemma fixed_title_not_misspelt (n : string) :
  Text.hyphen_title n = n -> misspelt_ability (Some n) = false.
Proof.
  intros H. unfold misspelt_ability, sql_eq.
  destruct (String.eqb n "static") eqn:E1;
    [apply String.eqb_eq in E1; subst; vm_compute in H; discriminate|].
  destruct (String.eqb n "gras") eqn:E2;
    [apply String.eqb_eq in E2; subst; vm_compute in H; discriminate|].
  destruct (String.eqb n "overgrow") eqn:E3;
    [apply String.eqb_eq in E3; subst; vm_compute in H; discriminate|].
  reflexivity.
Qed.

(** X7.  After the cleaning pass no creature is named [Pikuchu],
    [Charmanderr], [Bulbasuar] or [RATtata], no trainer is named [misty],
    and no ability is named [static], [gras] or [overgrow]. *)
Theorem X7_no_known_misspelling_is_left (db : database) :
  Forall (fun p => misspelt_pokemon (pokemon_name p) = false) (pokemon (cleaned db))
  /\ Forall (fun t => misspelt_trainer (trainer_name t) = false) (trainers (cleaned db))
  /\ Forall (fun a => misspelt_ability (ability_name a) = false) (abilities (cleaned db)).
Proof.
  repeat split; apply Forall_forall.
  - intros p Hp. rewrite cleaned_pokemon in Hp. cbn [clean_spec pokemon] in Hp.
    apply in_map_iff in Hp as (p0 & <- & _).
    apply fix_pokemon_name_not_misspelt.
  - intros t Ht. rewrite cleaned_trainers in Ht. cbn [clean_spec trainers] in Ht.
    apply filter_In in Ht as [Ht _]. apply in_map_iff in Ht as (t0 & <- & _).
    cbn [trainer_name]. unfold misspelt_trainer, Clean.fix_trainer_name.
    destruct (sql_eq (trainer_name t0) "misty") eqn:E; [reflexivity | exact E].
  - intros a Ha. destruct (ability_name a) as [n|] eqn:En; [|reflexivity].
    apply fixed_title_not_misspelt. apply (cleaned_abilities_fixed db a n Ha En).
Qed.

Lemma repoint_valid (ts : list type_row) (p : pokemon_row) :
  valid_type2 ts (cleaned_pokemon_row ts p).
Proof.
  unfold valid_type2, cleaned_pokemon_row, Clean.repoint_type2_row.
  cbn [type2_id]. destruct (type2_id p) as [i|] eqn:E2; [|rewrite E2; exact I].
  cbn [type2_id]. unfold Clean.type_id_by_name.
  destruct (option_map Text.sql_title (Clean.type_name_by_id ts i)) as [s|];
    [|exact I].
  destruct (find (fun t => sql_eq (type_name t) s) ts) as [t|] eqn:F; [|exact I].
  apply find_some in F as [Ht Hn]. exists t. repeat split; auto.
  intros E. rewrite E in Hn. discriminate.
Qed.

(** X8.  After the cleaning pass the second-type reference of every
    creature is NULL or the identifier of a Type row of the cleaned store
    that has a name: the pass leaves no dangling second type. *)
Theorem X8_second_type_is_null_or_valid (db : database) :
  Forall (valid_type2 (types (cleaned db))) (pokemon (cleaned db)).
Proof.
  rewrite cleaned_pokemon, cleaned_types. cbn [clean_spec pokemon].
  apply Forall_forall. intros p Hp. apply in_map_iff in Hp as (p0 & <- & _).
  apply repoint_valid.
Qed.

(* ------------------------------------------------------------------ *)
(** ** Casing and hyphen segments: further properties *)
(* ------------------------------------------------------------------ *)

Module CasingFacts.
Import Text.

Lemma to_lower_to_upper c : to_lower (to_upper c) = to_lower c.
Proof. TextFacts.each_char c. Qed.

Lemma join_split (s : string) : join hyphen (split hyphen s) = s.
Proof.
  induction s as [|c r IH]; [reflexivity|].
  cbn [split]. pose proof (TextFacts.split_not_nil r) as NE.
  destruct (Ascii.eqb c hyphen) eqn:E.
  - apply Ascii.eqb_eq in E. subst c.
    destruct (split hyphen r) as [|p ps]; [congruence|].
    change (join hyphen (EmptyString :: p :: ps))
      with (String hyphen (join hyphen (p :: ps))).
    rewrite IH. reflexivity.
  - destruct (split hyphen r) as [|p ps]; [congruence|].
    destruct ps as [|q qs].
    + cbn [join] in *. rewrite IH. reflexivity.
    + change (join hyphen (String c p :: q :: qs))
        with (String c (join hyphen (p :: q :: qs))).
      rewrite IH. reflexivity.
Qed.

Lemma LOWER_app (a b : string) : LOWER (a ++ b) = LOWER a ++ LOWER b.
Proof.
  unfold LOWER. induction a as [|c a IH]; simpl; [|rewrite IH]; reflexivity.
Qed.

Lemma LOWER_join (parts : list string) :
  LOWER (join hyphen parts) = join hyphen (map LOWER parts).
Proof.
  induction parts as [|p ps IH]; [reflexivity|].
  destruct ps as [|q qs]; [reflexivity|].
  change (join hyphen (p :: q :: qs))
    with (p ++ String hyphen (join hyphen (q :: qs))).
  rewrite LOWER_app.
  change (LOWER (String hyphen (join hyphen (q :: qs))))
    with (String hyphen (LOWER (join hyphen (q :: qs)))).
  rewrite IH. reflexivity.
Qed.

Lemma LOWER_capitalize (s : string) : LOWER (capitalize s) = LOWER s.
Proof.
  destruct s as [|c r]; [reflexivity|].
  unfold LOWER. cbn [capitalize map_chars].
  rewrite to_lower_to_upper,
    (TextFacts.map_chars_idem to_lower r TextFacts.to_lower_idem).
  reflexivity.
Qed.

Lemma LOWER_hyphen_title (s : string) : LOWER (hyphen_title s) = LOWER s.
Proof.
  unfold hyphen_title. rewrite LOWER_join, map_map.
  rewrite (map_ext _ LOWER) by apply LOWER_capitalize.
  rewrite <- LOWER_join, join_split. reflexivity.
Qed.

End CasingFacts.



(** X10.  Splitting on hyphens and joining with hyphens are inverse:
    joining the segments of a name gives the name back, and splitting the
    join of a non-empty list of hyphen-free segments gives the list back. *)
Theorem X10_split_join_round_trip :
  (forall s, Text.join Text.hyphen (Text.split Text.hyphen s) = s)
  /\ (forall parts, parts <> [] -> forallb Text.no_hyphen parts = true ->
                    Text.split Text.hyphen (Text.join Text.hyphen parts) = parts).
Proof. split; [apply CasingFacts.join_split | apply TextFacts.split_join]. Qed.

Lemma X10_on_sample :
  Text.split Text.hyphen (Text.join Text.hyphen ["solar"; ""; "power"])
  = ["solar"; ""; "power"].
Proof.
  apply (proj2 X10_split_join_round_trip ["solar"; ""; "power"]).
  - discriminate.
  - reflexivity.
Defined.



(** X12.  Casing a cased name changes nothing: for the SQL casing of
    the type update on any name, for the Python casing of the ability
    loop on an ASCII name. *)
Theorem X12_casing_is_idempotent (s : string) :
  Text.sql_title (Text.sql_title s) = Text.sql_title s
  /\ (Text.is_ascii s = true ->
      Text.hyphen_title (Text.hyphen_title s) = Text.hyphen_title s).
Proof.
  split; [|intros _; apply TextFacts.hyphen_title_idem].
  rewrite !TextFacts.sql_title_capitalize. apply TextFacts.capitalize_idem.
Qed.

Lemma X12_on_sample :
  Text.hyphen_title (Text.hyphen_title "solar-POWER") = Text.hyphen_title "solar-POWER".
Proof.
  apply (proj2 (X12_casing_is_idempotent "solar-POWER")). reflexivity.
Defined.

(* ------------------------------------------------------------------ *)
(** ** The query statements: what they return *)
(* ------------------------------------------------------------------ *)

Lemma sql_eq_id_true (x : option Z) (y : Z) :
  sql_eq_id x y = true <-> x = Some y.
Proof.
  destruct x as [a|]; simpl; [rewrite Z.eqb_eq|]; split; congruence.
Qed.

Lemma opt_string_eqb_eq (x y : option string) :
  opt_eqb String.eqb x y = true <-> x = y.
Proof. apply opt_eqb_eq, String.eqb_eq. Qed.

Lemma distinct_In (l : list (option string)) (x : option string) :
  In x (Select.distinct l) <-> In x l.
Proof.
  induction l as [|y l IH]; simpl; [tauto|].
  rewrite filter_In, IH. split.
  - intros [->|[H _]]; auto.
  - intros [->|H]; [left; reflexivity|].
    destruct (opt_eqb String.eqb y x) eqn:E.
    + apply opt_string_eqb_eq in E. left. exact E.
    + right. split; [exact H | reflexivity].
Qed.

Lemma distinct_NoDup (l : list (option string)) : NoDup (Select.distinct l).
Proof.
  induction l as [|y l IH]; simpl; constructor.
  - rewrite filter_In. intros [_ H].
    assert (E : opt_eqb String.eqb y y = true) by (apply opt_string_eqb_eq; reflexivity).
    rewrite E in H. discriminate.
  - apply NoDup_filter, IH.
Qed.

(** X13.  The three statements that ask for NOCASE give the same rows
    for two arguments that differ only in letter case. *)
Theorem X13_nocase_statements_ignore_case (a b : string) (db : database) :
  Text.nocase_eqb a b = true ->
  Select.pokemon_by_ability a db = Select.pokemon_by_ability b db
  /\ Select.pokemon_by_type a db = Select.pokemon_by_type b db
  /\ Select.abilities_by_pokemon a db = Select.abilities_by_pokemon b db.
Proof.
  unfold Text.nocase_eqb. intros H. apply String.eqb_eq in H.
  unfold Select.pokemon_by_ability, Select.pokemon_by_type,
    Select.abilities_by_pokemon, sql_eq_nocase, Text.nocase_eqb.
  rewrite H. repeat split.
Qed.

Lemma X13_on_sample :
  Select.pokemon_by_type "ELECTRIC" Sample.pikachu
  = Select.pokemon_by_type "electric" Sample.pikachu.
Proof.
  apply (X13_nocase_statements_ignore_case "ELECTRIC" "electric" Sample.pikachu).
  reflexivity.
Defined.

Lemma pokemon_by_type_In (name : string) (db : database)
        (n : option string) :
  In n (Select.pokemon_by_type name db)
  <-> exists p t1,
        In p (pokemon db) /\ In t1 (types db)
        /\ type1_id p = Some (type_id t1) /\ pokemon_name p = n
        /\ (sql_eq_nocase (type_name t1) name = true
            \/ exists t2, In t2 (types db) /\ type2_id p = Some (type_id t2)
                          /\ sql_eq_nocase (type_name t2) name = true).
Proof.
  unfold Select.pokemon_by_type. rewrite in_flat_map. split.
  - intros (p & Hp & H). apply in_flat_map in H as (t1 & Ht1 & H).
    destruct (sql_eq_id (type1_id p) (type_id t1)) eqn:E1; [|contradiction].
    apply sql_eq_id_true in E1.
    apply in_flat_map in H as (t2n & Ht2 & H).
    destruct (sql_eq_nocase (type_name t1) name) eqn:M1.
    + destruct H as [<-|[]]. exists p, t1. repeat split; auto.
    + cbn [orb] in H.
      destruct (sql_eq_nocase t2n name) eqn:M2; [|contradiction].
      destruct H as [<-|[]]. exists p, t1. repeat split; auto. right.
      unfold Select.left_join_types in Ht2.
      destruct (filter (fun t => sql_eq_id (type2_id p) (type_id t)) (types db))
        as [|m ms] eqn:F.
      * destruct Ht2 as [<-|[]]. discriminate.
      * apply in_map_iff in Ht2 as (t2 & <- & Hin).
        rewrite <- F in Hin. apply filter_In in Hin as [Hin E2].
        apply sql_eq_id_true in E2. exists t2. auto.
  - intros (p & t1 & Hp & Ht1 & E1 & <- & M).
    exists p. split; [exact Hp|]. apply in_flat_map. exists t1.
    split; [exact Ht1|].
    apply sql_eq_id_true in E1. rewrite E1. apply in_flat_map.
    destruct M as [M1|(t2 & Ht2 & E2 & M2)].
    + unfold Select.left_join_types.
      destruct (filter _ (types db)) as [|m ms].
      * exists None. split; [left; reflexivity|]. rewrite M1. left. reflexivity.
      * exists (type_name m). split; [left; reflexivity|].
        rewrite M1. left. reflexivity.
    + exists (type_name t2). split.
      * unfold Select.left_join_types.
        assert (Hin : In t2 (filter (fun t => sql_eq_id (type2_id p) (type_id t))
                                    (types db))).
        { apply filter_In. split; [exact Ht2|]. apply sql_eq_id_true, E2. }
        destruct (filter _ (types db)) as [|m ms]; [contradiction|].
        apply in_map, Hin.
      * rewrite M2, orb_true_r. left. reflexivity.
Qed.

(** X14.  The creatures-by-type statement lists exactly the names of the
    creatures whose first type is a row of the type table and whose first
    or second type row carries the asked name, letter case aside.  A
    creature whose first-type reference is NULL or dangling is never
    listed, whatever its second type. *)
Theorem X14_pokemon_by_type_membership (name : string) (db : database)
        (n : option string) :
  In n (Select.pokemon_by_type name db)
  <-> exists p t1,
        In p (pokemon db) /\ In t1 (types db)
        /\ type1_id p = Some (type_id t1) /\ pokemon_name p = n
        /\ (sql_eq_nocase (type_name t1) name = true
            \/ exists t2, In t2 (types db) /\ type2_id p = Some (type_id t2)
                          /\ sql_eq_nocase (type_name t2) name = true).
Proof. apply pokemon_by_type_In. Qed.

(** X15.  The three statements that go through the join table list
    exactly the names reached by a join row whose two references both
    name a row: creatures by ability and abilities by creature compare
    the asked name under NOCASE, trainers by creature with a plain [=]. *)
Theorem X15_join_statements_membership (name : string) (db : database)
        (n : option string) :
  (In n (Select.pokemon_by_ability name db)
   <-> exists p j a,
         In p (pokemon db) /\ In j (trainer_pokemon_abilities db)
         /\ In a (abilities db)
         /\ tpa_pokemon_id j = Some (pokemon_id p)
         /\ tpa_ability_id j = Some (ability_id a)
         /\ sql_eq_nocase (ability_name a) name = true
         /\ pokemon_name p = n)
  /\ (In n (Select.abilities_by_pokemon name db)
      <-> exists a j p,
            In a (abilities db) /\ In j (trainer_pokemon_abilities db)
            /\ In p (pokemon db)
            /\ tpa_ability_id j = Some (ability_id a)
            /\ tpa_pokemon_id j = Some (pokemon_id p)
            /\ sql_eq_nocase (pokemon_name p) name = true
            /\ ability_name a = n)
  /\ (In n (Select.trainers_by_pokemon name db)
      <-> exists t j p,
            In t (trainers db) /\ In j (trainer_pokemon_abilities db)
            /\ In p (pokemon db)
            /\ tpa_trainer_id j = Some (trainer_id t)
            /\ tpa_pokemon_id j = Some (pokemon_id p)
            /\ sql_eq (pokemon_name p) name = true
            /\ trainer_name t = n).
Proof.
  unfold Select.pokemon_by_ability, Select.abilities_by_pokemon,
    Select.trainers_by_pokemon.
  rewrite distinct_In. repeat split.
  - intros H. apply in_flat_map in H as (x & Hx & H).
    apply in_flat_map in H as (j & Hj & H).
    destruct (sql_eq_id (tpa_pokemon_id j) (pokemon_id x)) eqn:E1; [|contradiction].
    apply in_flat_map in H as (y & Hy & H).
    destruct (sql_eq_id (tpa_ability_id j) (ability_id y)) eqn:E2; [|contradiction].
    destruct (sql_eq_nocase (ability_name y) name) eqn:M; [|contradiction].
    destruct H as [<-|[]]. apply sql_eq_id_true in E1, E2.
    exists x, j, y. repeat split; auto.
  - intros (x & j & y & Hx & Hj & Hy & E1 & E2 & M & <-).
    apply sql_eq_id_true in E1, E2.
    apply in_flat_map. exists x. split; [exact Hx|].
    apply in_flat_map. exists j. split; [exact Hj|]. rewrite E1.
    apply in_flat_map. exists y. split; [exact Hy|]. rewrite E2, M.
    left. reflexivity.
  - intros H. apply in_flat_map in H as (x & Hx & H).
    apply in_flat_map in H as (j & Hj & H).
    destruct (sql_eq_id (tpa_ability_id j) (ability_id x)) eqn:E1; [|contradiction].
    apply in_flat_map in H as (y & Hy & H).
    destruct (sql_eq_id (tpa_pokemon_id j) (pokemon_id y)) eqn:E2; [|contradiction].
    destruct (sql_eq_nocase (pokemon_name y) name) eqn:M; [|contradiction].
    destruct H as [<-|[]]. apply sql_eq_id_true in E1, E2.
    exists x, j, y. repeat split; auto.
  - intros (x & j & y & Hx & Hj & Hy & E1 & E2 & M & <-).
    apply sql_eq_id_true in E1, E2.
    apply in_flat_map. exists x. split; [exact Hx|].
    apply in_flat_map. exists j. split; [exact Hj|]. rewrite E1.
    apply in_flat_map. exists y. split; [exact Hy|]. rewrite E2, M.
    left. reflexivity.
  - intros H. apply in_flat_map in H as (x & Hx & H).
    apply in_flat_map in H as (j & Hj & H).
    destruct (sql_eq_id (tpa_trainer_id j) (trainer_id x)) eqn:E1; [|contradiction].
    apply in_flat_map in H as (y & Hy & H).
    destruct (sql_eq_id (tpa_pokemon_id j) (pokemon_id y)) eqn:E2; [|contradiction].
    destruct (sql_eq (pokemon_name y) name) eqn:M; [|contradiction].
    destruct H as [<-|[]]. apply sql_eq_id_true in E1, E2.
    exists x, j, y. repeat split; auto.
  - intros (x & j & y & Hx & Hj & Hy & E1 & E2 & M & <-).
    apply sql_eq_id_true in E1, E2.
    apply in_flat_map. exists x. split; [exact Hx|].
    apply in_flat_map. exists j. split; [exact Hj|]. rewrite E1.
    apply in_flat_map. exists y. split; [exact Hy|]. rewrite E2, M.
    left. reflexivity.
Qed.

(** X16.  The trainers-by-creature statement lists no trainer name
    twice, however many join rows link the trainer to the creature. *)
Theorem X16_trainers_by_pokemon_has_no_repeat (name : string) (db : database) :
  NoDup (Select.trainers_by_pokemon name db).
Proof. unfold Select.trainers_by_pokemon. apply distinct_NoDup. Qed.

(** X17.  No database endpoint ever answers 200: whatever the host, the
    driver, the lookup service and the argument, each of the five
    handlers ends in a 500 response and leaves the store as it found
    it. *)
Theorem X17_every_database_endpoint_answers_500
        (faults : nat -> option string) (requests_get : string -> api_response)
        (rnd : nat) (h : host) (name : string) :
  (exists d, fastapi (reply (get_pokemon_by_ability faults h name)) = HttpError 500 d)
  /\ (exists d, fastapi (reply (get_pokemon_by_type faults h name)) = HttpError 500 d)
  /\ (exists d, fastapi (reply (get_trainers_by_pokemon faults h name)) = HttpError 500 d)
  /\ (exists d, fastapi (reply (get_abilities_by_pokemon faults h name)) = HttpError 500 d)
  /\ (exists d, fastapi (reply (add_trainer_pokemon_abilities
                                  faults requests_get rnd h name))
                = HttpError 500 d)
  /\ disk_after (get_pokemon_by_ability faults h name) = disk h
  /\ disk_after (get_pokemon_by_type faults h name) = disk h
  /\ disk_after (get_trainers_by_pokemon faults h name) = disk h
  /\ disk_after (get_abilities_by_pokemon faults h name) = disk h
  /\ disk_after (add_trainer_pokemon_abilities faults requests_get rnd h name)
     = disk h.
Proof.
  rewrite get_pokemon_by_ability_reply, get_pokemon_by_type_reply,
    get_trainers_by_pokemon_reply, get_abilities_by_pokemon_reply,
    add_trainer_pokemon_abilities_reply.
  destruct (connect_db h) as [conn|] eqn:E; cbn;
    [apply connect_db_disk in E; subst conn|];
    repeat split; eexists; reflexivity.
Qed.

(* ------------------------------------------------------------------ *)
(** ** The ingest statements: what they write *)
(* ------------------------------------------------------------------ *)

Lemma next_rowid_above (ids : list Z) (x : Z) :
  In x ids -> x < Insert.next_rowid ids.
Proof.
  destruct ids as [|i rest]; [contradiction|]. cbn [Insert.next_rowid].
  assert (H : forall l b y, In y (b :: l) -> y <= fold_right Z.max b l).
  { induction l as [|z l IH]; intros b y Hy; cbn [fold_right].
    - destruct Hy as [->|[]]. lia.
    - destruct Hy as [->|[->|Hy]].
      + specialize (IH y y (or_introl eq_refl)). lia.
      + lia.
      + specialize (IH b y (or_intror Hy)). lia. }
  intros Hx. specialize (H rest i x Hx). lia.
Qed.

Lemma NoDup_snoc_fresh (ids : list Z) :
  NoDup ids -> NoDup (ids ++ [Insert.next_rowid ids]).
Proof.
  intros N. apply NoDup_app; [exact N | repeat constructor; simpl; tauto |].
  intros x Hx [<-|[]]. apply next_rowid_above in Hx. lia.
Qed.

Lemma find_app_none {A} (f : A -> bool) (l l' : list A) :
  find f l = None -> find f (l ++ l') = find f l'.
Proof.
  induction l as [|x l IH]; simpl; [reflexivity|].
  destruct (f x); [discriminate | exact IH].
Qed.

Lemma find_app_some {A} (f : A -> bool) (l l' : list A) (x : A) :
  find f l = Some x -> find f (l ++ l') = Some x.
Proof.
  induction l as [|y l IH]; simpl; [discriminate|].
  destruct (f y); [trivial | exact IH].
Qed.

Lemma find_snoc_hit {A} (f : A -> bool) (l : list A) (x : A) :
  f x = true -> exists y, find f (l ++ [x]) = Some y.
Proof.
  intros H. destruct (find f l) as [y|] eqn:F.
  - exists y. apply find_app_some, F.
  - exists x. rewrite (find_app_none f l [x] F). simpl. rewrite H. reflexivity.
Qed.

Lemma extends_refl (db : database) : extends db db.
Proof.
  unfold extends. repeat split; try (exists []; symmetry; apply app_nil_r).
Qed.

Lemma extends_trans (a b c : database) : extends a b -> extends b c -> extends a c.
Proof.
  intros ((t1 & Ht1) & (a1 & Ha1) & (p1 & Hp1) & Hr1 & (j1 & Hj1))
         ((t2 & Ht2) & (a2 & Ha2) & (p2 & Hp2) & Hr2 & (j2 & Hj2)).
  unfold extends. rewrite Ht2, Ha2, Hp2, Hr2, Hj2, Ht1, Ha1, Hp1, Hr1, Hj1.
  repeat split; eexists; symmetry; apply app_assoc.
Qed.

Lemma grows_refl (db : database) : grows db db.
Proof. split; [apply extends_refl | trivial]. Qed.

Lemma grows_trans (a b c : database) : grows a b -> grows b c -> grows a c.
Proof.
  intros [E1 D1] [E2 D2]. split; [eapply extends_trans; eassumption | auto].
Qed.

Lemma grows_insert_type (n : string) (db : database) : grows db (Insert.type_ n db).
Proof.
  split.
  - unfold extends, Insert.type_; cbn. repeat split;
      try (exists []; symmetry; apply app_nil_r). eexists. reflexivity.
  - intros (Ht & Ha & Hp & Hr & Hj). unfold distinct_ids, Insert.type_; cbn.
    repeat split; auto. rewrite map_app. apply NoDup_snoc_fresh, Ht.
Qed.

Lemma grows_insert_ability (n : string) (db : database) : grows db (Insert.ability n db).
Proof.
  split.
  - unfold extends, Insert.ability; cbn. repeat split;
      try (exists []; symmetry; apply app_nil_r). eexists. reflexivity.
  - intros (Ht & Ha & Hp & Hr & Hj). unfold distinct_ids, Insert.ability; cbn.
    repeat split; auto. rewrite map_app. apply NoDup_snoc_fresh, Ha.
Qed.

Lemma grows_insert_pokemon (n : string) (t1 t2 : option Z) (db : database) :
  grows db (Insert.pokemon_ n t1 t2 db).
Proof.
  split.
  - unfold extends, Insert.pokemon_; cbn. repeat split;
      try (exists []; symmetry; apply app_nil_r). eexists. reflexivity.
  - intros (Ht & Ha & Hp & Hr & Hj). unfold distinct_ids, Insert.pokemon_; cbn.
    repeat split; auto. rewrite map_app. apply NoDup_snoc_fresh, Hp.
Qed.

Lemma grows_insert_tpa (t p a : Z) (db : database) : grows db (Insert.tpa t p a db).
Proof.
  split.
  - unfold extends, Insert.tpa; cbn. repeat split;
      try (exists []; symmetry; apply app_nil_r). eexists. reflexivity.
  - intros (Ht & Ha & Hp & Hr & Hj). unfold distinct_ids, Insert.tpa; cbn.
    repeat split; auto. rewrite map_app. apply NoDup_snoc_fresh, Hj.
Qed.

Section IngestFacts.
Variable faults : nat -> option string.
Variable requests_get : string -> api_response.
Variable rnd : nat.

Lemma bind_returned {A B} (m : sql A) (k : A -> sql B) (s : cursor_state)
      (x : B * cursor_state) :
  bind m k s = Returned x ->
  exists v s1, m s = Returned (v, s1) /\ k v s1 = Returned x.
Proof.
  unfold bind. destruct (m s) as [[v s1]|e]; [|discriminate].
  intros H. exists v, s1. auto.
Qed.

Lemma query_returned {A} (q : database -> A) (s s' : cursor_state) (v : A) :
  query faults q s = Returned (v, s') -> v = q (work s) /\ work s' = work s.
Proof.
  unfold query. destruct (faults (calls s)); [discriminate|].
  intros H. inversion H; subst. auto.
Qed.

Lemma insert_returned (ids : database -> list Z) (stmt : database -> database)
      (s s' : cursor_state) (v : Z) :
  insert faults ids stmt s = Returned (v, s') ->
  v = Insert.next_rowid (ids (work s)) /\ work s' = stmt (work s).
Proof.
  unfold insert. intros H. apply bind_returned in H as (w & s1 & Hq & H).
  apply query_returned in Hq as [-> Hw]. inversion H; subst. cbn.
  rewrite Hw. auto.
Qed.

(** [get_or_create_type] writes nothing or appends one type row. *)
Lemma get_or_create_type_returned (tn : option string) (s s' : cursor_state)
      (v : option Z) :
  get_or_create_type faults tn s = Returned (v, s') ->
  work s' = work s \/ exists n, work s' = Insert.type_ n (work s).
Proof.
  unfold get_or_create_type. destruct tn as [n|].
  - destruct (String.eqb n "").
    + intros H. inversion H. auto.
    + intros H. apply bind_returned in H as (row & s1 & Hq & H).
      apply query_returned in Hq as [_ Hw]. destruct row as [i|].
      * inversion H; subst. auto.
      * apply bind_returned in H as (i & s2 & Hi & H).
        apply insert_returned in Hi as [_ Hw2]. inversion H; subst.
        right. exists n. congruence.
  - intros H. inversion H. auto.
Qed.

Lemma get_or_create_type_grows (tn : option string) (s s' : cursor_state)
      (v : option Z) :
  get_or_create_type faults tn s = Returned (v, s') ->
  grows (work s) (work s')
  /\ trainer_pokemon_abilities (work s') = trainer_pokemon_abilities (work s)
  /\ trainers (work s') = trainers (work s).
Proof.
  intros H. apply get_or_create_type_returned in H as [->|(n & ->)].
  - split; [apply grows_refl | split; reflexivity].
  - split; [apply grows_insert_type | split; reflexivity].
Qed.

(** The loop over the abilities appends ability rows and join rows only,
    and returns the identifiers of the join rows it appended. *)
Lemma add_abilities_returned (t p : Z) (names : list string) :
  forall (inserted : list Z) (s s' : cursor_state) (ids : list Z),
    add_abilities faults t p names inserted s = Returned (ids, s') ->
    grows (work s) (work s')
    /\ exists rows,
         trainer_pokemon_abilities (work s')
         = (trainer_pokemon_abilities (work s) ++ rows)%list
         /\ ids = (inserted ++ map tpa_id rows)%list
         /\ Forall (fun j => tpa_trainer_id j = Some t /\ tpa_pokemon_id j = Some p)
                   rows.
Proof.
  induction names as [|ability rest IH]; intros inserted s s' ids H.
  - inversion H; subst. split; [apply grows_refl|].
    exists []. rewrite !app_nil_r. auto.
  - cbn [add_abilities] in H.
    apply bind_returned in H as (i0 & s1 & Hi & H).
    apply insert_returned in Hi as [_ W1].
    apply bind_returned in H as (row & s2 & Hq & H).
    apply query_returned in Hq as [_ W2].
    destruct row as [a|]; [|discriminate].
    apply bind_returned in H as (existing & s3 & Hq3 & H).
    apply query_returned in Hq3 as [_ W3].
    assert (G3 : grows (work s) (work s3)).
    { rewrite W3, W2, W1. apply grows_insert_ability. }
    assert (J3 : trainer_pokemon_abilities (work s3)
                 = trainer_pokemon_abilities (work s)).
    { rewrite W3, W2, W1. reflexivity. }
    destruct existing as [e|].
    + apply IH in H as (G & rows & Hj & Hids & Hall).
      split; [eapply grows_trans; eassumption|].
      exists rows. rewrite Hj, J3. auto.
    + apply bind_returned in H as (new_id & s4 & Hi4 & H).
      apply insert_returned in Hi4 as [Hnew W4].
      apply IH in H as (G & rows & Hj & Hids & Hall).
      split.
      * eapply grows_trans; [exact G3|]. eapply grows_trans; [|exact G].
        rewrite W4. apply grows_insert_tpa.
      * exists ({| tpa_id := new_id; tpa_trainer_id := Some t;
                   tpa_pokemon_id := Some p; tpa_ability_id := Some a |} :: rows).
        rewrite Hj, W4. cbn [Insert.tpa Clean.set_tpa trainer_pokemon_abilities].
        rewrite <- Hnew, J3, Hids, <- !app_assoc. cbn [map tpa_id app].
        repeat split; auto.
Qed.

(** The ingest statements, from the first [SELECT] to the [return]. *)
Lemma add_body_returned (name : string) (s s' : cursor_state) (r : ingest_result) :
  add_trainer_pokemon_abilities_body faults requests_get rnd name s
  = Returned (r, s') ->
  grows (work s) (work s')
  /\ exists t rows,
       In t (map trainer_id (trainers (work s)))
       /\ trainer_pokemon_abilities (work s')
          = (trainer_pokemon_abilities (work s) ++ rows)%list
       /\ inserted_ids r = map tpa_id rows
       /\ Forall (fun j => tpa_trainer_id j = Some t) rows.
Proof.
  unfold add_trainer_pokemon_abilities_body. intros H.
  apply bind_returned in H as (existing & s1 & Hq1 & H).
  apply query_returned in Hq1 as [_ W1].
  destruct existing as [e|]; [discriminate|].
  destruct (negb (Z.eqb (status_code (requests_get name)) 200)); [discriminate|].
  apply bind_returned in H as (t1 & s2 & Hg1 & H).
  apply get_or_create_type_grows in Hg1 as (G2 & J2 & R2).
  apply bind_returned in H as (t2 & s3 & Hg2 & H).
  apply get_or_create_type_grows in Hg2 as (G3 & J3 & R3).
  apply bind_returned in H as (row & s4 & Hq4 & H).
  apply query_returned in Hq4 as [_ W4].
  apply bind_returned in H as (pid & s5 & Hp & H).
  assert (G5 : grows (work s4) (work s5)
               /\ trainer_pokemon_abilities (work s5)
                  = trainer_pokemon_abilities (work s4)
               /\ trainers (work s5) = trainers (work s4)).
  { destruct row as [i|].
    - inversion Hp; subst. split; [apply grows_refl | split; reflexivity].
    - apply insert_returned in Hp as [_ ->].
      split; [apply grows_insert_pokemon | split; reflexivity]. }
  destruct G5 as (G5 & J5 & R5).
  apply bind_returned in H as (trow & s6 & Hq6 & H).
  apply query_returned in Hq6 as [Htrow W6].
  destruct trow as [tid|]; [|discriminate].
  apply bind_returned in H as (ids & s7 & Ha & H).
  apply add_abilities_returned in Ha as (G7 & rows & Hj & Hids & Hall).
  inversion H; subst r s'. cbn [inserted_ids].
  assert (Rs : trainers (work s5) = trainers (work s)) by congruence.
  split.
  - rewrite <- W1. eapply grows_trans; [exact G2|].
    eapply grows_trans; [exact G3|]. rewrite <- W4.
    eapply grows_trans; [exact G5|]. rewrite <- W6. exact G7.
  - exists tid, rows. repeat split.
    + unfold Select.random_trainer_id in Htrow. rewrite Rs in Htrow.
      destruct (nth_error (trainers (work s)) _) as [tr|] eqn:N; [|discriminate].
      inversion Htrow; subst. apply in_map. eapply nth_error_In, N.
    + rewrite Hj, W6, J5, W4, J3, J2, W1. reflexivity.
    + exact Hids.
    + apply Forall_forall. intros j Hin.
      apply (proj1 (Forall_forall _ _) Hall j Hin).
Qed.
End IngestFacts.

(* ------------------------------------------------------------------ *)
(** ** The ingest statements with a driver that does not fail *)
(* ------------------------------------------------------------------ *)

Lemma bind_query_nf {A B} (q : database -> A) (k : A -> sql B) (s : cursor_state) :
  bind (query no_faults q) k s = k (q (work s)) (bump s).
Proof. reflexivity. Qed.

Lemma bind_insert_nf {B} (ids : database -> list Z) (stmt : database -> database)
      (k : Z -> sql B) (s : cursor_state) :
  bind (insert no_faults ids stmt) k s
  = k (Insert.next_rowid (ids (work s)))
      {| work := stmt (work s); calls := S (calls s) |}.
Proof. reflexivity. Qed.

Lemma bind_of_returned {A B} (m : sql A) (k : A -> sql B) (s s1 : cursor_state)
      (v : A) :
  m s = Returned (v, s1) -> bind m k s = k v s1.
Proof. intros H. unfold bind. rewrite H. reflexivity. Qed.

Lemma get_or_create_type_total (tn : option string) (s : cursor_state) :
  exists v s', get_or_create_type no_faults tn s = Returned (v, s').
Proof.
  unfold get_or_create_type. destruct tn as [n|]; [|eexists _, _; reflexivity].
  destruct (String.eqb n ""); [eexists _, _; reflexivity|].
  rewrite bind_query_nf.
  destruct (Select.type_id_by_name n (work s)); [eexists _, _; reflexivity|].
  rewrite bind_insert_nf. eexists _, _. reflexivity.
Qed.

Lemma ability_found_after_insert (ability : string) (db : database) :
  exists a, Select.ability_id_by_name ability (Insert.ability ability db) = Some a.
Proof.
  unfold Select.ability_id_by_name, Insert.ability.
  cbn [Clean.set_abilities abilities].
  destruct (find_snoc_hit (fun a => sql_eq (ability_name a) ability) (abilities db)
              {| ability_id := Insert.next_rowid (map ability_id (abilities db));
                 ability_name := Some ability |}) as (y & Hy).
  - cbn. apply String.eqb_refl.
  - rewrite Hy. eexists. reflexivity.
Qed.

(** The subscript of [fetchone()] in the loop never fails: the row was
    inserted just before. *)
Lemma add_abilities_total (t p : Z) (names : list string) :
  forall (inserted : list Z) (s : cursor_state),
    exists ids s', add_abilities no_faults t p names inserted s = Returned (ids, s').
Proof.
  induction names as [|ability rest IH]; intros inserted s.
  - eexists _, _. reflexivity.
  - cbn [add_abilities]. rewrite bind_insert_nf, bind_query_nf. cbn [work bump].
    destruct (ability_found_after_insert ability (work s)) as (a & Ha).
    rewrite Ha. rewrite bind_query_nf.
    destruct (Select.tpa_id_by_key t p a _); [apply IH|].
    rewrite bind_insert_nf. apply IH.
Qed.

Lemma random_trainer_none (rnd : nat) (db : database) :
  trainers db = [] -> Select.random_trainer_id rnd db = None.
Proof.
  intros E. unfold Select.random_trainer_id. rewrite E.
  destruct (Nat.modulo rnd (List.length (@nil trainer_row))); reflexivity.
Qed.

Lemma random_trainer_some (rnd : nat) (db : database) :
  trainers db <> [] -> exists t, Select.random_trainer_id rnd db = Some t.
Proof.
  intros NE. unfold Select.random_trainer_id.
  destruct (nth_error (trainers db) _) as [tr|] eqn:N.
  - eexists. reflexivity.
  - exfalso. apply nth_error_None in N.
    assert (L : List.length (trainers db) <> 0%nat).
    { destruct (trainers db); [congruence | discriminate]. }
    pose proof (Nat.mod_upper_bound rnd _ L). lia.
Qed.

Lemma sample_pikachu_headroom :
  rowid_headroom (ingest_inserts (Sample.pokeapi "raichu")) Sample.pikachu.
Proof.
  unfold rowid_headroom, MAX_ROWID. cbn.
  repeat split; repeat constructor; discriminate.
Qed.

(** X18.  On a store whose tables have room for the new rows below the
    largest rowid of the engine, the ingest statements, when they run to
    their [return], have only appended rows: every table still starts
    with the rows it had, unchanged and in place, the trainer table is
    the same, and identifiers that were distinct are still distinct. *)
Theorem X18_ingest_statements_only_append
        (faults : nat -> option string) (requests_get : string -> api_response)
        (rnd : nat) (name : string) (s s' : cursor_state) (r : ingest_result) :
  rowid_headroom (ingest_inserts (requests_get name)) (work s) ->
  add_trainer_pokemon_abilities_body faults requests_get rnd name s
  = Returned (r, s') ->
  extends (work s) (work s')
  /\ (distinct_ids (work s) -> distinct_ids (work s')).
Proof. intros _ H. apply (add_body_returned _ _ _ _ _ _ _ H). Qed.

Lemma X18_on_sample :
  exists r s',
    add_trainer_pokemon_abilities_body no_faults Sample.pokeapi 0 "raichu"
      {| work := Sample.pikachu; calls := 0 |} = Returned (r, s')
    /\ extends Sample.pikachu (work s').
Proof.
  eexists _, _. split; [vm_compute; reflexivity|].
  refine (proj1 (X18_ingest_statements_only_append no_faults Sample.pokeapi 0
                   "raichu" {| work := Sample.pikachu; calls := 0 |} _ _ _ _)).
  - exact sample_pikachu_headroom.
  - vm_compute. reflexivity.
Defined.

(** X19.  On a store whose tables have room for the new rows below the
    largest rowid of the engine, the [inserted_ids] the ingest statements
    return are exactly the identifiers of the join rows they appended, in
    order, and all those rows name one trainer, who was in the trainer
    table before. *)
Theorem X19_inserted_ids_are_the_appended_join_rows
        (faults : nat -> option string) (requests_get : string -> api_response)
        (rnd : nat) (name : string) (s s' : cursor_state) (r : ingest_result) :
  rowid_headroom (ingest_inserts (requests_get name)) (work s) ->
  add_trainer_pokemon_abilities_body faults requests_get rnd name s
  = Returned (r, s') ->
  exists t rows,
    In t (map trainer_id (trainers (work s)))
    /\ trainer_pokemon_abilities (work s')
       = (trainer_pokemon_abilities (work s) ++ rows)%list
    /\ inserted_ids r = map tpa_id rows
    /\ Forall (fun j => tpa_trainer_id j = Some t) rows.
Proof. intros _ H. apply (add_body_returned _ _ _ _ _ _ _ H). Qed.

Lemma X19_on_sample :
  exists r s',
    add_trainer_pokemon_abilities_body no_faults Sample.pokeapi 0 "raichu"
      {| work := Sample.pikachu; calls := 0 |} = Returned (r, s')
    /\ exists t rows,
         In t (map trainer_id (trainers Sample.pikachu))
         /\ trainer_pokemon_abilities (work s')
            = (trainer_pokemon_abilities Sample.pikachu ++ rows)%list
         /\ inserted_ids r = map tpa_id rows
         /\ Forall (fun j => tpa_trainer_id j = Some t) rows.
Proof.
  eexists _, _. split; [vm_compute; reflexivity|].
  apply (X19_inserted_ids_are_the_appended_join_rows no_faults Sample.pokeapi 0
           "raichu" {| work := Sample.pikachu; calls := 0 |}).
  - exact sample_pikachu_headroom.
  - vm_compute. reflexivity.
Defined.

(** From the draw of the trainer to the [return]. *)
Lemma add_body_tail (rnd : nat) (name : string) (abilities : list string)
      (pid : Z) (s : cursor_state) :
  match trainers (work s) with
  | [] =>
      (trainer_row <- query no_faults (Select.random_trainer_id rnd) ;;
       match trainer_row with
       | None => raise (HTTPException 400 "No trainers available.")
       | Some trainer_id =>
           inserted_ids <- add_abilities no_faults trainer_id pid abilities [] ;;
           ret {| message := "Abilities for " ++ name ++ " added successfully.";
                  inserted_ids := inserted_ids |}
       end) s
      = Raised (HTTPException 400 "No trainers available.")
  | _ :: _ =>
      exists r s',
        (trainer_row <- query no_faults (Select.random_trainer_id rnd) ;;
         match trainer_row with
         | None => raise (HTTPException 400 "No trainers available.")
         | Some trainer_id =>
             inserted_ids <- add_abilities no_faults trainer_id pid abilities [] ;;
             ret {| message := "Abilities for " ++ name ++ " added successfully.";
                    inserted_ids := inserted_ids |}
         end) s
        = Returned (r, s')
  end.
Proof.
  rewrite bind_query_nf.
  destruct (trainers (work s)) as [|t0 ts] eqn:E.
  - rewrite (random_trainer_none rnd (work s) E). reflexivity.
  - destruct (random_trainer_some rnd (work s)) as (t & Ht); [congruence|].
    rewrite Ht.
    destruct (add_abilities_total t pid abilities [] (bump s)) as (ids & s' & Ha).
    rewrite (bind_of_returned _ _ _ _ _ Ha). eexists _, _. reflexivity.
Qed.


(** X21.  [get_or_create_type] is an insert-or-lookup: for a non-empty
    name it returns an identifier under which a lookup by that name then
    finds the type, a second call returns the same identifier without
    writing, and a name that is already there causes no write at all.
    For a missing or empty name it returns [None] without a driver
    call. *)
Theorem X21_get_or_create_type_round_trip (n : string) (s : cursor_state) :
  get_or_create_type no_faults None s = Returned (None, s)
  /\ get_or_create_type no_faults (Some "") s = Returned (None, s)
  /\ (n <> "" ->
      exists i s',
        get_or_create_type no_faults (Some n) s = Returned (Some i, s')
        /\ Select.type_id_by_name n (work s') = Some i
        /\ get_or_create_type no_faults (Some n) s' = Returned (Some i, bump s')
        /\ (Select.type_id_by_name n (work s) <> None -> work s' = work s)).
Proof.
  repeat split. intros NE.
  apply String.eqb_neq in NE. unfold get_or_create_type. rewrite NE.
  rewrite bind_query_nf.
  destruct (Select.type_id_by_name n (work s)) as [i|] eqn:E.
  - exists i, (bump s). cbn [work bump]. rewrite bind_query_nf. cbn [work bump].
    rewrite E. repeat split.
  - rewrite bind_insert_nf.
    eexists _, _. split; [reflexivity|]. cbn [work].
    assert (L : Select.type_id_by_name n (Insert.type_ n (work s))
                = Some (Insert.next_rowid (map type_id (types (work s))))).
    { unfold Select.type_id_by_name in *. unfold Insert.type_.
      cbn [Clean.set_types types].
      destruct (find (fun t => sql_eq (type_name t) n) (types (work s))) eqn:F;
        [discriminate|].
      rewrite (find_app_none _ _ _ F). cbn. rewrite String.eqb_refl. reflexivity. }
    split; [exact L|]. split; [|congruence].
    rewrite bind_query_nf. cbn [work bump]. rewrite L. reflexivity.
Qed.

Lemma X21_on_sample :
  exists i s',
    get_or_create_type no_faults (Some "electric")
      {| work := Sample.pikachu; calls := 0 |} = Returned (Some i, s')
    /\ Select.type_id_by_name "electric" (work s') = Some i
    /\ get_or_create_type no_faults (Some "electric") s' = Returned (Some i, bump s')
    /\ (Select.type_id_by_name "electric" Sample.pikachu <> None ->
        work s' = Sample.pikachu).
Proof.
  apply (proj2 (proj2 (X21_get_or_create_type_round_trip "electric"
                         {| work := Sample.pikachu; calls := 0 |}))).
  discriminate.
Defined.

(** X22.  The pass never changes the identifier or the first-type
    reference of a creature, and never re-points one to the Type row kept
    for its name; so after the pass the creatures-by-type statement lists
    only creatures whose first-type reference is the identifier of a Type
    row that survived the deduplication. *)
Theorem X22_first_type_is_never_repointed (db : database) :
  map (fun p => (pokemon_id p, type1_id p)) (pokemon (cleaned db))
  = map (fun p => (pokemon_id p, type1_id p))
        (delete_not_min pokemon_id pokemon_key pokemon_key_eqb (pokemon db))
  /\ forall name n,
       In n (Select.pokemon_by_type name (cleaned db)) ->
       exists p i,
         In p (pokemon (cleaned db)) /\ pokemon_name p = n
         /\ type1_id p = Some i
         /\ In i (map type_id
                      (delete_not_min type_id type_name name_key_eqb (types db))).
Proof.
  split.
  - rewrite cleaned_pokemon. cbn [clean_spec pokemon]. rewrite map_map.
    reflexivity.
  - intros name n H. apply pokemon_by_type_In in H
      as (p & t1 & Hp & Ht1 & E1 & En & _).
    exists p, (type_id t1). repeat split; auto.
    rewrite cleaned_types, in_map_iff in Ht1. destruct Ht1 as (t0 & <- & Ht0).
    cbn [Clean.title_type type_id]. apply in_map, Ht0.
Qed.

(** X23.  With distinct join-row identifiers, no two join rows share
    (trainer_id, pokemon_id, ability_id) after a full cleaning pass. *)
Theorem X23_join_rows_unique_after_cleaning (db : database) :
  NoDup (map tpa_id (trainer_pokemon_abilities db)) ->
  NoDup (map tpa_key (trainer_pokemon_abilities (cleaned db))).
Proof.
  intros N. rewrite cleaned_tpa.
  apply delete_not_min_unique; [apply tpa_key_eqb_eq | exact N].
Qed.

Lemma X23_on_sample :
  NoDup (map tpa_key (trainer_pokemon_abilities (cleaned Sample.placeholder_grant))).
Proof.
  apply (X23_join_rows_unique_after_cleaning Sample.placeholder_grant).
  simpl. repeat constructor; simpl; intuition discriminate.
Defined.

(** X24.  The cleaning pass keeps identifiers distinct: if no table of
    the store holds an identifier twice before the pass, none does after
    it. *)
Theorem X24_cleaning_keeps_identifiers_distinct (db : database) :
  distinct_ids db -> distinct_ids (cleaned db).
Proof.
  intros (Ht & Ha & Hp & Hr & Hj). unfold distinct_ids.
  rewrite cleaned_types, cleaned_ability_ids, cleaned_pokemon, cleaned_trainers,
    cleaned_tpa.
  cbn [clean_spec pokemon trainers]. rewrite !map_map. cbn [type_id pokemon_id].
  unfold delete_not_min. repeat split.
  - apply NoDup_map_filter, Ht.
  - apply NoDup_map_filter, NoDup_map_filter, Ha.
  - apply NoDup_map_filter, Hp.
  - apply NoDup_map_filter. rewrite map_map. cbn [trainer_id].
    apply NoDup_map_filter, Hr.
  - apply NoDup_map_filter, Hj.
Qed.

Lemma X24_on_sample : distinct_ids (cleaned Sample.near_duplicates).
Proof.
  apply (X24_cleaning_keeps_identifiers_distinct Sample.near_duplicates).
  exact sample_near_duplicates_distinct_ids.
Defined.

(** X25.  Startup serves from the cleaned store exactly when the store
    could be opened and no driver call of the pass failed; when the store
    cannot be opened or the pass fails, startup goes on all the same and
    the endpoints are served from the store as it was. *)
Theorem X25_startup_cleans_or_leaves_the_store
        (faults : nat -> option string) (h : host) :
  db_file_exists (startup faults h) = db_file_exists h
  /\ connect_error (startup faults h) = connect_error h
  /\ disk (startup faults h)
     = match connect_db h with
       | None => disk h
       | Some _ =>
           match first_fault faults (List.length (clean_script (disk h))) with
           | None => cleaned (disk h)
           | Some _ => disk h
           end
       end.
Proof.
  unfold startup. destruct (connect_db h) as [conn|] eqn:E; [|repeat split].
  apply connect_db_disk in E. subst conn.
  rewrite clean_database_run, cleaned_run.
  destruct (first_fault faults (List.length (clean_script (disk h))))
    as [[k msg]|]; cbn; repeat split.
Qed.

(* ------------------------------------------------------------------ *)
(** ** The invariants the operations keep *)
(* ------------------------------------------------------------------ *)

Lemma NoDup_snoc {A} (l : list A) (x : A) :
  NoDup l -> ~ In x l -> NoDup (l ++ [x]).
Proof.
  intros N Hx. apply NoDup_app; [exact N | repeat constructor; simpl; tauto |].
  intros y Hy [<-|[]]. exact (Hx Hy).
Qed.

Lemma option_map_none {A B} (f : A -> B) (o : option A) :
  option_map f o = None -> o = None.
Proof. destruct o; [discriminate | reflexivity]. Qed.

(** A join row is inserted only under a key no row carries. *)
Lemma tpa_key_is_new (t p a : Z) (db : database) :
  Select.tpa_id_by_key t p a db = None ->
  ~ In (Some t, Some p, Some a) (map tpa_key (trainer_pokemon_abilities db)).
Proof.
  unfold Select.tpa_id_by_key. intros H Hin. apply option_map_none in H.
  apply in_map_iff in Hin as (j & Ej & Hj).
  pose proof (find_none _ _ H j Hj) as F. cbn beta in F.
  unfold tpa_key in Ej. inversion Ej as [[E1 E2 E3]].
  rewrite E1, E2, E3 in F. cbn in F. rewrite !Z.eqb_refl in F. discriminate.
Qed.

(** A creature is inserted only under a name no row carries. *)
Lemma pokemon_key_is_new (name : string) (t1 t2 : option Z) (db : database) :
  Select.pokemon_id_by_name name db = None ->
  ~ In (Some name, t1, t2) (map pokemon_key (pokemon db)).
Proof.
  unfold Select.pokemon_id_by_name. intros H Hin. apply option_map_none in H.
  apply in_map_iff in Hin as (q & Eq & Hq).
  pose proof (find_none _ _ H q Hq) as F. cbn beta in F.
  unfold pokemon_key in Eq. inversion Eq as [[E1 E2 E3]].
  rewrite E1 in F. cbn in F. rewrite String.eqb_refl in F. discriminate.
Qed.

Section IngestKeeps.
Variable faults : nat -> option string.
Variable requests_get : string -> api_response.
Variable rnd : nat.

Lemma get_or_create_type_frame (tn : option string) (s s' : cursor_state)
      (v : option Z) :
  get_or_create_type faults tn s = Returned (v, s') ->
  pokemon (work s') = pokemon (work s)
  /\ trainers (work s') = trainers (work s)
  /\ trainer_pokemon_abilities (work s') = trainer_pokemon_abilities (work s).
Proof.
  intros H. apply get_or_create_type_returned in H as [->|(n & ->)];
    repeat split.
Qed.

Lemma add_abilities_keeps (t p : Z) (names : list string) :
  forall (inserted : list Z) (s s' : cursor_state) (ids : list Z),
    add_abilities faults t p names inserted s = Returned (ids, s') ->
    pokemon (work s') = pokemon (work s)
    /\ trainers (work s') = trainers (work s)
    /\ (NoDup (map tpa_key (trainer_pokemon_abilities (work s))) ->
        NoDup (map tpa_key (trainer_pokemon_abilities (work s')))).
Proof.
  induction names as [|ability rest IH]; intros inserted s s' ids H.
  - inversion H; subst. repeat split; trivial.
  - cbn [add_abilities] in H.
    apply bind_returned in H as (i0 & s1 & Hi & H).
    apply insert_returned in Hi as [_ W1].
    apply bind_returned in H as (row & s2 & Hq & H).
    apply query_returned in Hq as [_ W2].
    destruct row as [a|]; [|discriminate].
    apply bind_returned in H as (existing & s3 & Hq3 & H).
    apply query_returned in Hq3 as [Hex W3].
    assert (P3 : pokemon (work s3) = pokemon (work s))
      by (rewrite W3, W2, W1; reflexivity).
    assert (R3 : trainers (work s3) = trainers (work s))
      by (rewrite W3, W2, W1; reflexivity).
    assert (J3 : trainer_pokemon_abilities (work s3)
                 = trainer_pokemon_abilities (work s))
      by (rewrite W3, W2, W1; reflexivity).
    destruct existing as [e|].
    + apply IH in H as (P & R & K). rewrite P, R, P3, R3, <- J3. auto.
    + apply bind_returned in H as (new_id & s4 & Hi4 & H).
      apply insert_returned in Hi4 as [_ W4].
      apply IH in H as (P & R & K).
      rewrite P, R, W4. cbn [Insert.tpa Clean.set_tpa pokemon trainers].
      repeat split; auto.
      intros N. apply K. rewrite W4.
      cbn [Insert.tpa Clean.set_tpa trainer_pokemon_abilities].
      rewrite map_app. cbn [map tpa_key tpa_trainer_id tpa_pokemon_id tpa_ability_id].
      apply NoDup_snoc; [rewrite J3; exact N|].
      apply tpa_key_is_new. rewrite W3. symmetry. exact Hex.
Qed.

(** The ingest statements leave the trainers alone and insert a creature
    or a join row only under a key that is not there yet. *)
Lemma add_body_keeps (name : string) (s s' : cursor_state) (r : ingest_result) :
  add_trainer_pokemon_abilities_body faults requests_get rnd name s
  = Returned (r, s') ->
  trainers (work s') = trainers (work s)
  /\ (NoDup (map pokemon_key (pokemon (work s))) ->
      NoDup (map pokemon_key (pokemon (work s'))))
  /\ (NoDup (map tpa_key (trainer_pokemon_abilities (work s))) ->
      NoDup (map tpa_key (trainer_pokemon_abilities (work s')))).
Proof.
  unfold add_trainer_pokemon_abilities_body. intros H.
  apply bind_returned in H as (existing & s1 & Hq1 & H).
  apply query_returned in Hq1 as [_ W1].
  destruct existing as [e|]; [discriminate|].
  destruct (negb (Z.eqb (status_code (requests_get name)) 200)); [discriminate|].
  apply bind_returned in H as (t1 & s2 & Hg1 & H).
  apply get_or_create_type_frame in Hg1 as (P2 & R2 & J2).
  apply bind_returned in H as (t2 & s3 & Hg2 & H).
  apply get_or_create_type_frame in Hg2 as (P3 & R3 & J3).
  apply bind_returned in H as (row & s4 & Hq4 & H).
  apply query_returned in Hq4 as [Hrow W4].
  apply bind_returned in H as (pid & s5 & Hp & H).
  assert (K5 : trainers (work s5) = trainers (work s4)
               /\ trainer_pokemon_abilities (work s5)
                  = trainer_pokemon_abilities (work s4)
               /\ (NoDup (map pokemon_key (pokemon (work s4))) ->
                   NoDup (map pokemon_key (pokemon (work s5))))).
  { destruct row as [i|].
    - inversion Hp; subst. repeat split; trivial.
    - apply insert_returned in Hp as [_ ->].
      cbn [Insert.pokemon_ Clean.set_pokemon pokemon trainers
             trainer_pokemon_abilities].
      repeat split. intros N. rewrite map_app.
      cbn [map pokemon_key pokemon_name type1_id type2_id].
      apply NoDup_snoc; [exact N|].
      apply pokemon_key_is_new. rewrite W4. symmetry. exact Hrow. }
  destruct K5 as (R5 & J5 & K5).
  apply bind_returned in H as (trow & s6 & Hq6 & H).
  apply query_returned in Hq6 as [_ W6].
  destruct trow as [tid|]; [|discriminate].
  apply bind_returned in H as (ids & s7 & Ha & H).
  apply add_abilities_keeps in Ha as (P7 & R7 & K7).
  inversion H; subst r s'.
  repeat split.
  - rewrite R7, W6, R5, W4, R3, R2, W1. reflexivity.
  - intros N. rewrite P7, W6. apply K5. rewrite W4, P3, P2, W1. exact N.
  - intros N. apply K7. rewrite W6, J5, W4, J3, J2, W1. exact N.
Qed.
End IngestKeeps.

Lemma sample_pikachu_kept_invariants : kept_invariants Sample.pikachu.
Proof.
  destruct sample_pikachu_post_cleaning as (_ & _ & H3 & H4 & H5 & _ & _ & H8).
  repeat split; assumption.
Qed.



